(** * gemini-pr-description: the description merge engine, the diff reducer
      and the generator retry loop, embedded from the TypeScript sources

    - [JsString]    the ECMAScript string primitives the sources call
    - [Description] src/description.ts (markers, parse, wrap, update modes)
    - [Github]      src/github.ts (truncatePatches and its caller's gate)
    - [Gemini]      src/gemini.ts (isRetryableError, the retry loop, the
                    validations)
    - [Index]       src/index.ts (the exclude patterns, run)

    A JavaScript string is a sequence of UTF-16 code units; indices and
    lengths count code units.  Numbers that hold lengths, indices and
    budgets are integers and are modelled in [Z] (the sources compare
    against [-1]). *)

From Stdlib Require Import List ZArith NArith Lia Bool String Ascii.
From Stdlib Require Import Permutation Sorted.
Import ListNotations.

Open Scope Z_scope.

(* ------------------------------------------------------------------ *)
(** ** ECMAScript string primitives                                    *)
(* ------------------------------------------------------------------ *)

Module JsString.

Definition codeUnit := N.
Definition jsstring := list codeUnit.

(** A source literal without escapes, one code unit per character. *)
Definition lit (s : string) : jsstring :=
  map N_of_ascii (list_ascii_of_string s).

(** The escape [\n] of the source literals. *)
Definition LF : codeUnit := 10%N.

(** [s.length] *)
Definition len (s : jsstring) : Z := Z.of_nat (List.length s).

(** WhiteSpace and LineTerminator of ECMA-262: what [trim] strips and what
    the regular-expression class [\s] matches. *)
Definition isWhite (c : codeUnit) : bool :=
  ((9 <=? c) && (c <=? 13) || (c =? 32) || (c =? 160) || (c =? 5760)
   || (8192 <=? c) && (c <=? 8202) || (c =? 8232) || (c =? 8233)
   || (c =? 8239) || (c =? 8287) || (c =? 12288) || (c =? 65279))%N.

Fixpoint trimStart (s : jsstring) : jsstring :=
  match s with
  | [] => []
  | c :: s' => if isWhite c then trimStart s' else s
  end.

Definition trimEnd (s : jsstring) : jsstring := rev (trimStart (rev s)).

(** A string used as a condition is true when it is not empty. *)
Definition truthy (s : jsstring) : bool :=
  match s with [] => false | _ :: _ => true end.

(** [s.trim()] *)
Definition trim (s : jsstring) : jsstring := trimEnd (trimStart s).

(** [s === t] on strings *)
Fixpoint streq (s t : jsstring) : bool :=
  match s, t with
  | [], [] => true
  | a :: s', b :: t' => (a =? b)%N && streq s' t'
  | _, _ => false
  end.

(** [s.startsWith(t)] *)
Fixpoint startsWith (s t : jsstring) : bool :=
  match t, s with
  | [], _ => true
  | _ :: _, [] => false
  | a :: t', b :: s' => (a =? b)%N && startsWith s' t'
  end.

(** [s.endsWith(t)] *)
Definition endsWith (s t : jsstring) : bool := startsWith (rev s) (rev t).

(** [s.indexOf(t)]: the least position at which [t] occurs, [-1] if none.
    The empty string occurs at position 0. *)
Fixpoint indexOf (s t : jsstring) : Z :=
  if startsWith s t then 0
  else match s with
       | [] => -1
       | _ :: s' => let r := indexOf s' t in
                    if r =? -1 then -1 else r + 1
       end.

(** [s.indexOf(t, from)] *)
Definition indexOfFrom (s t : jsstring) (from : Z) : Z :=
  let k := Z.min (Z.max from 0) (len s) in
  let r := indexOf (skipn (Z.to_nat k) s) t in
  if r =? -1 then -1 else k + r.

(** [s.includes(t)] *)
Fixpoint includes (s t : jsstring) : bool :=
  startsWith s t ||
  match s with
  | [] => false
  | _ :: s' => includes s' t
  end.

(** [s.substring(a, b)]: both arguments are clamped to [0, s.length] and
    swapped when the first exceeds the second. *)
Definition clampIndex (s : jsstring) (n : Z) : Z := Z.min (Z.max n 0) (len s).

Definition substring (s : jsstring) (a b : Z) : jsstring :=
  let finalStart := clampIndex s a in
  let finalEnd := clampIndex s b in
  let from := Z.min finalStart finalEnd in
  let to := Z.max finalStart finalEnd in
  firstn (Z.to_nat (to - from)) (skipn (Z.to_nat from) s).

(** [s.substring(a)] *)
Definition substringFrom (s : jsstring) (a : Z) : jsstring :=
  substring s a (len s).

(** [parts.join(sep)] *)
Fixpoint join (sep : jsstring) (parts : list jsstring) : jsstring :=
  match parts with
  | [] => []
  | [p] => p
  | p :: rest => p ++ sep ++ join sep rest
  end.

(** [s.toLowerCase()].  The ASCII letters are mapped; every other code unit
    is left as it is (the needles searched for in lowered text are ASCII). *)
Definition lowerUnit (c : codeUnit) : codeUnit :=
  if ((65 <=? c) && (c <=? 90))%N then (c + 32)%N else c.

Definition toLowerCase (s : jsstring) : jsstring := map lowerUnit s.

(** [s.replace(/\s*-->$/, '')]: the leftmost position from which the rest of
    the string is white space followed by ["-->"] and the end of input; the
    match, when there is one, is removed. *)
Definition matchesClosingAtEnd (s : jsstring) : bool :=
  streq (trimStart s) (lit "-->").

Fixpoint replaceClosing (s : jsstring) : jsstring :=
  if matchesClosingAtEnd s then []
  else match s with
       | [] => []
       | c :: s' => c :: replaceClosing s'
       end.

End JsString.

Import JsString.

(* ------------------------------------------------------------------ *)
(** ** src/description.ts                                              *)
(* ------------------------------------------------------------------ *)

Module Description.

Definition DEFAULT_MARKER : jsstring := lit "<!-- gemini-pr-description -->".
Definition END_MARKER_SUFFIX : jsstring := lit "-end".

Record Markers := { start : jsstring; end_ : jsstring }.

Definition getMarkers (marker : jsstring) : Markers :=
  let baseMarker := trim (replaceClosing marker) in
  {| start := marker;
     end_ := baseMarker ++ END_MARKER_SUFFIX ++ lit " -->" |}.

Definition hasGeneratedContent (description marker : jsstring) : bool :=
  let m := getMarkers marker in
  includes description (start m) && includes description (end_ m).

Record Parsed := {
  beforeMarker : jsstring;
  generatedContent : jsstring;
  afterMarker : jsstring
}.

Definition parseDescription (description marker : jsstring) : Parsed :=
  let m := getMarkers marker in
  let startIdx := indexOf description (start m) in
  let endIdx := indexOf description (end_ m) in
  if (startIdx =? -1) || (endIdx =? -1) || (startIdx >=? endIdx) then
    {| beforeMarker := description;
       generatedContent := [];
       afterMarker := [] |}
  else
    {| beforeMarker := trim (substring description 0 startIdx);
       generatedContent :=
         trim (substring description (startIdx + len (start m)) endIdx);
       afterMarker := trim (substringFrom description (endIdx + len (end_ m))) |}.

Definition wrapWithMarkers (content marker : jsstring) : jsstring :=
  let m := getMarkers marker in
  start m ++ [LF; LF] ++ content ++ [LF; LF] ++ end_ m.

(** [type UpdateMode = 'empty' | 'append' | 'replace' | 'smart'].  The
    [default] branches of the two switches below are for values outside
    this type, which [parseInputs] refuses. *)
Inductive UpdateMode := empty | append | replace | smart.

(** The result object of [shouldGenerate]; its boolean field is named
    [shouldGenerate] in the source. *)
Record Decision := { generate : bool; reason : jsstring }.

Definition shouldGenerate (currentDescription : jsstring)
    (updateMode : UpdateMode) (_marker : jsstring) : Decision :=
  let trimmedDescription := trim currentDescription in
  match updateMode with
  | empty =>
      if len trimmedDescription =? 0 then
        {| generate := true; reason := lit "Description is empty" |}
      else
        {| generate := false;
           reason := lit "Description is not empty (mode: empty)" |}
  | append =>
      {| generate := true; reason := lit "Appending to existing description" |}
  | replace =>
      {| generate := true; reason := lit "Replacing entire description" |}
  | smart =>
      {| generate := true; reason := lit "Using smart mode with markers" |}
  end.

Definition applyUpdateMode (existingDescription generatedContent : jsstring)
    (updateMode : UpdateMode) (marker : jsstring) : jsstring :=
  let wrappedContent := wrapWithMarkers generatedContent marker in
  match updateMode with
  | empty => wrappedContent
  | append =>
      if truthy (trim existingDescription) then
        trim existingDescription ++ [LF; LF] ++ lit "---" ++ [LF; LF]
          ++ wrappedContent
      else wrappedContent
  | replace => wrappedContent
  | smart =>
      if hasGeneratedContent existingDescription marker then
        let p := parseDescription existingDescription marker in
        let parts :=
          filter (fun p => len (trim p) >? 0)
                 [beforeMarker p; wrappedContent; afterMarker p] in
        join [LF; LF] parts
      else if truthy (trim existingDescription) then
        trim existingDescription ++ [LF; LF] ++ wrappedContent
      else wrappedContent
  end.

End Description.


(* ------------------------------------------------------------------ *)
(** ** src/github.ts                                                   *)
(* ------------------------------------------------------------------ *)

Module Github.

Inductive Status := added | removed | modified | renamed | copied.

(** [interface FileChange]; an absent [patch] is [None]. *)
Record FileChange := {
  filename : jsstring;
  status : Status;
  additions : Z;
  deletions : Z;
  patch : option jsstring
}.

(** [{ ...file, patch: p }] *)
Definition withPatch (file : FileChange) (p : option jsstring) : FileChange :=
  {| filename := filename file;
     status := status file;
     additions := additions file;
     deletions := deletions file;
     patch := p |}.

(** [file.patch?.length || 0] *)
Definition patchLength (file : FileChange) : Z :=
  match patch file with
  | Some p => len p
  | None => 0
  end.

(** [Array.prototype.sort(cmp)] is stable; with a consistent comparator its
    result is the one stable arrangement, computed here by insertion.  An
    element goes before the first element it does not compare greater
    than. *)
Section SortBy.
Context {A : Type} (cmp : A -> A -> Z).

Fixpoint insertBy (x : A) (l : list A) : list A :=
  match l with
  | [] => [x]
  | y :: l' => if cmp x y <=? 0 then x :: l else y :: insertBy x l'
  end.

Definition sortBy (l : list A) : list A := fold_right insertBy [] l.
End SortBy.

(** The text appended to a cut patch: a line feed and ["... (truncated)"]. *)
Definition TRUNCATED : jsstring := [LF] ++ lit "... (truncated)".

(** The state of the loop: [currentSize] and [result]. *)
Definition loopState := (Z * list FileChange)%type.

(** One iteration of [for (const file of sortedFiles)]. *)
Definition truncateStep (maxDiffSize : Z) (st : loopState) (file : FileChange)
    : loopState :=
  let '(currentSize, result) := st in
  let patchSize := patchLength file in
  if currentSize + patchSize <=? maxDiffSize then
    (currentSize + patchSize, result ++ [file])
  else if currentSize <? maxDiffSize then
    let remainingSpace := maxDiffSize - currentSize in
    let truncatedPatch :=
      option_map (fun p => substring p 0 remainingSpace) (patch file) in
    let kept :=
      match truncatedPatch with
      | Some (c :: t) => Some ((c :: t) ++ TRUNCATED)
      | _ => None
      end in
    (maxDiffSize, result ++ [withPatch file kept])
  else
    (currentSize, result ++ [withPatch file None]).

Section Reducer.
(** [String.prototype.localeCompare] is the host's collation; the
    reducer is embedded over it. *)
Variable localeCompare : jsstring -> jsstring -> Z.

Definition bySizeDesc (a b : FileChange) : Z := patchLength b - patchLength a.

Definition byFilename (a b : FileChange) : Z :=
  localeCompare (filename a) (filename b).

Definition truncatePatches (files : list FileChange) (maxDiffSize : Z)
    : list FileChange :=
  let sortedFiles := sortBy bySizeDesc files in
  let '(_, result) := fold_left (truncateStep maxDiffSize) sortedFiles (0, []) in
  sortBy byFilename result.

(** The part of [fetchPRDiff] that decides whether patches are cut. *)
Definition totalDiffSize (files : list FileChange) : Z :=
  fold_left (fun sum f => sum + patchLength f) files 0.

Definition reduceFiles (files : list FileChange) (maxDiffSize : Z)
    : list FileChange :=
  if totalDiffSize files >? maxDiffSize then truncatePatches files maxDiffSize
  else files.
End Reducer.

(** The same gate over the budget as [parseInt] leaves it: an integer, or
    [NaN], here [None], with which every comparison is false. *)
Definition reduceFilesNumber (localeCompare : jsstring -> jsstring -> Z)
    (files : list FileChange) (maxDiffSize : option Z) : list FileChange :=
  match maxDiffSize with
  | Some budget => reduceFiles localeCompare files budget
  | None => files
  end.

(** Code-unit order, the comparator used to run the reducer on examples. *)
Fixpoint codeUnitCompare (s t : jsstring) : Z :=
  match s, t with
  | [], [] => 0
  | [], _ :: _ => -1
  | _ :: _, [] => 1
  | a :: s', b :: t' =>
      if (a <? b)%N then -1 else if (b <? a)%N then 1 else codeUnitCompare s' t'
  end.

(** [total = files.reduce((sum, f) => sum + f.additions, 0)] and the like. *)
Definition sumOf (g : FileChange -> Z) (files : list FileChange) : Z :=
  fold_left (fun sum f => sum + g f) files 0.

(** The pull request of the event payload; a field that may be missing or
    [null] is an option. *)
Record PullRequest := {
  number : Z;
  title : option jsstring;
  body : option jsstring;
  baseRef : option jsstring;
  headRef : option jsstring;
  draft : option bool
}.

Record PRContext := {
  owner : jsstring;
  repo : jsstring;
  pullNumber : Z;
  prTitle : jsstring;
  currentDescription : jsstring;
  baseBranch : jsstring;
  headBranch : jsstring;
  isDraft : bool
}.

(** [x || d] on a string that may be missing: [d] also replaces the empty
    string. *)
Definition orElse (x : option jsstring) (d : jsstring) : jsstring :=
  match x with
  | Some (c :: s) => c :: s
  | _ => d
  end.

(** [getPRContext], over the repository and the payload of the event; the
    left injection is the message of the error thrown. *)
Definition getPRContext (repoOwner repoName : jsstring)
    (pull_request : option PullRequest) : jsstring + PRContext :=
  match pull_request with
  | None =>
      inl (lit "This action must be run on a pull_request or pull_request_target event")
  | Some pr =>
      inr {| owner := repoOwner;
             repo := repoName;
             pullNumber := number pr;
             prTitle := orElse (title pr) [];
             currentDescription := orElse (body pr) [];
             baseBranch := orElse (baseRef pr) (lit "main");
             headBranch := orElse (headRef pr) [];
             isDraft := match draft pr with Some b => b | None => false end |}
  end.

(** [shouldExcludeFile]; [minimatch] is the glob matcher, [None] when it
    throws on the pattern. *)
Definition shouldExcludeFile (minimatch : jsstring -> jsstring -> option bool)
    (name : jsstring) (excludePatterns : list jsstring) : bool :=
  match excludePatterns with
  | [] => false
  | _ =>
      existsb (fun pattern =>
                 match minimatch name pattern with
                 | Some b => b
                 | None => false
                 end) excludePatterns
  end.

Record CommitInfo := { sha : jsstring; message : jsstring; author : jsstring }.

(** A commit as [listCommits] returns it: the name of the git author and
    the login of the user may both be missing. *)
Record RawCommit := {
  rawSha : jsstring;
  rawMessage : jsstring;
  authorName : option jsstring;
  authorLogin : option jsstring
}.

Record PRDiff := {
  files : list FileChange;
  totalAdditions : Z;
  totalDeletions : Z;
  commits : list CommitInfo
}.

Inductive GithubCall := ListFiles | ListCommits | UpdatePull (newDescription : jsstring).

(** [fetchPRDiff], over what the two requests answer (the left injection
    is the message of a rejection), with the requests it has made. *)
Definition fetchPRDiff (localeCompare : jsstring -> jsstring -> Z)
    (minimatch : jsstring -> jsstring -> option bool)
    (listFiles : jsstring + list FileChange)
    (listCommits : jsstring + list RawCommit)
    (maxDiffSize : Z) (excludePatterns : list jsstring)
    : (jsstring + PRDiff) * list GithubCall :=
  match listFiles with
  | inl e => (inl e, [ListFiles])
  | inr filesData =>
      let files :=
        filter (fun file => negb (shouldExcludeFile minimatch (filename file)
                                    excludePatterns)) filesData in
      let files := reduceFiles localeCompare files maxDiffSize in
      match listCommits with
      | inl e => (inl e, [ListFiles; ListCommits])
      | inr commitsData =>
          let commits :=
            map (fun c => {| sha := rawSha c;
                             message := rawMessage c;
                             author := orElse (authorName c)
                                         (orElse (authorLogin c) (lit "unknown")) |})
                commitsData in
          (inr {| files := files;
                  totalAdditions := sumOf additions files;
                  totalDeletions := sumOf deletions files;
                  commits := commits |},
           [ListFiles; ListCommits])
      end
  end.

End Github.

(* ------------------------------------------------------------------ *)
(** ** src/gemini.ts                                                   *)
(* ------------------------------------------------------------------ *)

Module Gemini.

(** An [Error] is modelled by its message. *)
Definition isRetryableError (errorMessage : jsstring) : bool :=
  let message := toLowerCase errorMessage in
  if includes message (lit "rate limit") || includes message (lit "quota") then true
  else if includes message (lit "503") || includes message (lit "service unavailable") then true
  else if includes message (lit "timeout") || includes message (lit "timed out") then true
  else if includes message (lit "500") || includes message (lit "internal server error") then true
  else false.

(** What one call of [model.generateContent] followed by [response.text()]
    can do: throw, resolve without a response, or give the text [t]. *)
Inductive ApiOutcome :=
| Throws (message : jsstring)
| NoResponse
| Responds (text : jsstring).

(** What the loop does to the outside, in order. *)
Inductive Event :=
| Call (attempt : Z)
| Sleep (ms : Z).

Inductive Completion :=
| Returned (text : jsstring)
| Thrown (message : jsstring)
| OutOfFuel.

Definition maxRetries : Z := 3.

(** The body of [try]: the value returned, or the message of the error
    thrown to the [catch]. *)
Definition tryBody (o : ApiOutcome) : jsstring + jsstring :=
  match o with
  | Throws m => inr m
  | NoResponse => inr (lit "No response received from Gemini API")
  | Responds text =>
      if negb (truthy text) || (len (trim text) =? 0) then
        inr (lit "Empty response received from Gemini API")
      else inl (trim text)
  end.

(** [for (let attempt = 1; attempt <= maxRetries; attempt++)], with the
    events so far in [trace] (latest first).  [api k] is what the call made
    in attempt [k] does. *)
Fixpoint retryLoop (fuel : nat) (api : Z -> ApiOutcome) (attempt : Z)
    (lastError : option jsstring) (trace : list Event)
    : Completion * list Event :=
  match fuel with
  | O => (OutOfFuel, rev trace)
  | S fuel' =>
      if attempt <=? maxRetries then
        let trace := Call attempt :: trace in
        match tryBody (api attempt) with
        | inl text => (Returned text, rev trace)
        | inr message =>
            if isRetryableError message then
              let trace :=
                if attempt <? maxRetries then Sleep (2 ^ attempt * 1000) :: trace
                else trace in
              retryLoop fuel' api (attempt + 1) (Some message) trace
            else (Thrown message, rev trace)
        end
      else
        match lastError with
        | Some message => (Thrown message, rev trace)
        | None => (Thrown (lit "Failed to generate description after all retries"),
                   rev trace)
        end
  end.

Definition generateDescription (api : Z -> ApiOutcome)
    : Completion * list Event :=
  retryLoop 4 api 1 None [].

Definition calls (trace : list Event) : list Z :=
  flat_map (fun e => match e with Call k => [k] | Sleep _ => [] end) trace.

Definition sleeps (trace : list Event) : list Z :=
  flat_map (fun e => match e with Sleep ms => [ms] | Call _ => [] end) trace.

(** [validateApiKey]: the message of the error thrown, if any. *)
Definition validateApiKey (apiKey : jsstring) : option jsstring :=
  if negb (truthy apiKey) || (len (trim apiKey) =? 0) then
    Some (lit "Gemini API key is required")
  else if len apiKey <? 20 then
    Some (lit "Gemini API key appears to be invalid (too short)")
  else None.

Definition getAvailableModels : list jsstring :=
  [lit "gemini-3-flash"; lit "gemini-2.0-flash"; lit "gemini-2.0-flash-lite";
   lit "gemini-1.5-flash"; lit "gemini-1.5-flash-8b"; lit "gemini-1.5-pro"].

(** [validateModel]: whether the warning is issued. *)
Definition validateModel (model : jsstring) : bool :=
  let availableModels := getAvailableModels in
  negb (existsb (streq model) availableModels)
  && negb (startsWith model (lit "gemini-")).

End Gemini.

(* ------------------------------------------------------------------ *)
(** ** src/index.ts                                                    *)
(* ------------------------------------------------------------------ *)

Module Index.

Import Description Github Gemini.

(** [s.split(',')]: the pieces between the commas, at least one. *)
Fixpoint splitComma (s : jsstring) : list jsstring :=
  match s with
  | [] => [[]]
  | c :: s' =>
      if (c =? 44)%N then [] :: splitComma s'
      else match splitComma s' with
           | [] => [[c]]
           | piece :: pieces => (c :: piece) :: pieces
           end
  end.

(** The [excludePatterns] of [parseInputs], from the text of the input
    [exclude_patterns]. *)
Definition parseExcludePatterns (excludePatternsRaw : jsstring) : list jsstring :=
  filter (fun p => len p >? 0) (map trim (splitComma excludePatternsRaw)).

(** The inputs that decide what [run] does; the others ([github_token],
    [max_tokens], [temperature], the prompts and the language) only reach
    the client, the generator and the prompt. *)
Record ActionInputs := {
  geminiApiKey : jsstring;
  model : jsstring;
  updateMode : UpdateMode;
  maxDiffSize : Z;
  excludePatterns : list jsstring;
  generationMarker : jsstring
}.

(** What is outside [run]: what [parseInputs] gives or throws, the event,
    the glob matcher and the collation, the answers of the three requests
    and of the generator.  Building the clients and the prompts is taken
    not to throw. *)
Record World := {
  inputs : jsstring + ActionInputs;
  repoOwner : jsstring;
  repoName : jsstring;
  pull_request : option PullRequest;
  localeCompare : jsstring -> jsstring -> Z;
  minimatch : jsstring -> jsstring -> option bool;
  listFiles : jsstring + list FileChange;
  listCommits : jsstring + list RawCommit;
  api : Z -> ApiOutcome;
  update : option jsstring
}.

(** What [run] does to the outside, in order: requests to the host, the
    calls and waits of the generator, and the reports [core.setOutput] and
    [core.setFailed].  Log lines are left out. *)
Inductive Effect :=
| Request (call : GithubCall)
| Generator (e : Event)
| SetOutput (name value : jsstring)
| SetFailed (message : jsstring).

(** The text put in front of the message of a caught error: a cross mark
    and [" Action failed: "]. *)
Definition ACTION_FAILED : jsstring := [10060%N] ++ lit " Action failed: ".

(** The [catch] of [run]. *)
Definition caught (done : list Effect) (message : jsstring) : list Effect :=
  done ++ [SetFailed (ACTION_FAILED ++ message)].

Definition run (w : World) : list Effect :=
  match inputs w with
  | inl e => caught [] e
  | inr inputs =>
  match validateApiKey (geminiApiKey inputs) with
  | Some e => caught [] e
  | None =>
  match getPRContext (repoOwner w) (repoName w) (pull_request w) with
  | inl e => caught [] e
  | inr prContext =>
  let decision :=
    shouldGenerate (currentDescription prContext) (updateMode inputs)
                   (generationMarker inputs) in
  if negb (generate decision) then
    [SetOutput (lit "description") (currentDescription prContext);
     SetOutput (lit "generated") (lit "false");
     SetOutput (lit "model_used") (model inputs)]
  else
  let '(diff, requests) :=
    fetchPRDiff (localeCompare w) (minimatch w) (listFiles w) (listCommits w)
                (maxDiffSize inputs) (excludePatterns inputs) in
  let done := map Request requests in
  match diff with
  | inl e => caught done e
  | inr diff =>
  let '(completion, trace) := generateDescription (api w) in
  let done := done ++ map Generator trace in
  match completion with
  | OutOfFuel => caught done []
  | Thrown e => caught done e
  | Returned generatedContent =>
  let finalDescription :=
    applyUpdateMode (currentDescription prContext) generatedContent
                    (updateMode inputs) (generationMarker inputs) in
  let done := done ++ [Request (UpdatePull finalDescription)] in
  match update w with
  | Some e => caught done e
  | None =>
      done ++ [SetOutput (lit "description") finalDescription;
               SetOutput (lit "generated") (lit "true");
               SetOutput (lit "model_used") (model inputs)]
  end end end end end end.

End Index.

Import Description Github Gemini Index.

(* ------------------------------------------------------------------ *)
(** ** Vocabulary of the statements                                    *)
(* ------------------------------------------------------------------ *)

(** A string of white space only. *)
Definition allWhite (s : jsstring) : bool := forallb isWhite s.

(** The number of occurrences of a code unit. *)
Definition count (c : codeUnit) (s : jsstring) : nat :=
  List.length (filter (N.eqb c) s).

(** A base marker is taken as valid when it is written on one line. *)
Definition validMarker (marker : jsstring) : bool :=
  negb (existsb (N.eqb LF) marker).

(** A base marker written on three lines, and a text without either of its
    derived markers. *)
Definition threeLineMarker : jsstring := lit "q" ++ [LF; LF] ++ lit "q".
Definition threeLineText : jsstring := lit "q-end -->".


(** A description with user text on both sides of a marked block. *)
Definition userContentDocument : jsstring :=
  lit "User content" ++ [LF; LF] ++ lit "<!-- gemini-pr-description -->" ++ [LF]
    ++ lit "Old generated" ++ [LF] ++ lit "<!-- gemini-pr-description-end -->"
    ++ [LF; LF] ++ lit "More user content".

(** A collation that ignores the case of ASCII letters: an example of a
    consistent comparator that is not the order of the code units. *)
Definition caseFoldCompare (a b : jsstring) : Z :=
  codeUnitCompare (toLowerCase a) (toLowerCase b).

(** The expected delimiter format: an HTML comment. *)
Definition legalMarker (marker : jsstring) : bool :=
  startsWith marker (lit "<!--") && endsWith marker (lit "-->").

(** The guard of [parseDescription], negated: both markers are found and
    the first start marker lies before the first end marker. *)
Definition wellFormedPair (description marker : jsstring) : bool :=
  let m := getMarkers marker in
  let startIdx := indexOf description (start m) in
  let endIdx := indexOf description (end_ m) in
  negb ((startIdx =? -1) || (endIdx =? -1) || (startIdx >=? endIdx)).

(** The degenerate split: everything is user content. *)
Definition degenerate (description : jsstring) : Parsed :=
  {| beforeMarker := description; generatedContent := []; afterMarker := [] |}.

(** The split as the specification words it: the end marker is the first
    one found strictly after the position of the start marker. *)
Definition parseDescription_spec (description marker : jsstring) : Parsed :=
  let m := getMarkers marker in
  let startIdx := indexOf description (start m) in
  let endIdx := indexOfFrom description (end_ m) (startIdx + 1) in
  if (startIdx =? -1) || (endIdx =? -1) then degenerate description
  else
    {| beforeMarker := trim (substring description 0 startIdx);
       generatedContent :=
         trim (substring description (startIdx + len (start m)) endIdx);
       afterMarker := trim (substringFrom description (endIdx + len (end_ m))) |}.

(** The end marker derived from [DEFAULT_MARKER], written out. *)
Definition END_DEFAULT : jsstring := lit "<!-- gemini-pr-description-end -->".

(** A document whose end marker stands both before and after the start
    marker. *)
Definition endFirstDocument : jsstring :=
  END_DEFAULT ++ DEFAULT_MARKER ++ lit "x" ++ END_DEFAULT.

(** A description with user notes in front of a marked block. *)
Definition userNotesDocument : jsstring :=
  lit "User notes" ++ [LF; LF] ++ DEFAULT_MARKER ++ [LF; LF] ++ lit "Old"
    ++ [LF; LF] ++ END_DEFAULT.

(** A description whose user text is surrounded by extra blank lines and
    spaces. *)
Definition paddedDocument : jsstring :=
  lit "  User notes  " ++ [LF; LF; LF] ++ DEFAULT_MARKER ++ [LF] ++ lit "Old"
    ++ [LF] ++ END_DEFAULT ++ [LF; LF; LF] ++ lit " tail " ++ [LF].

(** A modified file with a patch. *)
Definition fileOf (name patchText : jsstring) : FileChange :=
  {| filename := name; status := modified; additions := 1; deletions := 0;
     patch := Some patchText |}.

(** What a file change says beside its patch. *)
Definition metadata (f : FileChange) : jsstring * Status * Z * Z :=
  (filename f, status f, additions f, deletions f).

(** [g] is [f] with its patch as it was, removed, or cut to a prefix that
    is followed by the truncation text. *)
Definition cutFrom (f g : FileChange) : Prop :=
  metadata g = metadata f
  /\ (patch g = patch f
      \/ patch g = None
      \/ exists p n, patch f = Some p /\ patch g = Some (firstn n p ++ TRUNCATED)).

(** The files [fetchPRDiff] keeps of those the host lists. *)
Definition keptFiles (minimatch : jsstring -> jsstring -> option bool)
    (excludePatterns : list jsstring) (filesData : list FileChange)
    : list FileChange :=
  filter (fun file => negb (shouldExcludeFile minimatch (filename file)
                              excludePatterns)) filesData.

(** A glob matcher for examples: a pattern matches the name it spells. *)
Definition exactMatch (name pattern : jsstring) : option bool :=
  Some (streq name pattern).

(** Three files given out of order, and one file larger than its budget. *)
Definition sampleFiles : list FileChange :=
  [fileOf (lit "src/b.ts") (lit "0123456789");
   fileOf (lit "src/a.ts") (lit "0123");
   fileOf (lit "README.md") (lit "01")].

Definition oneLargeFile : list FileChange := [fileOf (lit "a.ts") (lit "abcdef")].

(** Two files whose names differ in case, larger together than a budget of
    5. *)
Definition mixedCaseFiles : list FileChange :=
  [fileOf (lit "B.ts") (lit "0123456789"); fileOf (lit "a.ts") (lit "01")].

(** The texts whose presence in the lowered message makes an error
    transient: rate limiting, service unavailable, timeout, internal server
    error. *)
Definition transientSignatures : list jsstring :=
  [lit "rate limit"; lit "quota"; lit "503"; lit "service unavailable";
   lit "timeout"; lit "timed out"; lit "500"; lit "internal server error"].

(** The events of a loop that uses its three attempts. *)
Definition fullTrace : list Event :=
  [Call 1; Sleep 2000; Call 2; Sleep 4000; Call 3].

(** The events of a loop that ends in attempt [n]. *)
Definition traceUpTo (n : Z) : list Event := firstn (Z.to_nat (2 * n - 1)) fullTrace.

(** The generator answers at once with padded text. *)
Definition answersPadded (k : Z) : ApiOutcome := Responds (lit "  Summary " ++ [LF]).

(** The comma, and a text without commas. *)
Definition COMMA : codeUnit := 44%N.

Definition commaFree (p : jsstring) : bool := negb (existsb (N.eqb COMMA) p).

(** A pattern as [parseInputs] keeps it: not empty, without commas and
    without white space at either end. *)
Definition cleanPattern (p : jsstring) : bool :=
  truthy p && commaFree p && streq (trim p) p.

(** The requests that update the pull request, with the description they
    send. *)
Definition updatesOf (effects : list Effect) : list jsstring :=
  flat_map (fun e => match e with
                     | Request (UpdatePull newDescription) => [newDescription]
                     | _ => []
                     end) effects.

(** Effects that reach outside the process: requests and generator
    events. *)
Definition isExternal (e : Effect) : bool :=
  match e with
  | Request _ | Generator _ => true
  | SetOutput _ _ | SetFailed _ => false
  end.

Definition isReport (e : Effect) : bool := negb (isExternal e).

(** The three outputs of a run. *)
Definition outputs (description generated modelUsed : jsstring) : list Effect :=
  [SetOutput (lit "description") description;
   SetOutput (lit "generated") generated;
   SetOutput (lit "model_used") modelUsed].

(** A pull request with a description, inputs with an acceptable key, and
    a world in which the host and the generator answer. *)
Definition samplePull : PullRequest :=
  {| number := 7; title := Some (lit "Add feature");
     body := Some (lit "User notes"); baseRef := Some (lit "main");
     headRef := Some (lit "feature"); draft := Some false |}.

Definition sampleInputs (mode : UpdateMode) : ActionInputs :=
  {| geminiApiKey := lit "0123456789012345678901234567890123456789";
     model := lit "gemini-2.0-flash";
     updateMode := mode;
     maxDiffSize := 5;
     excludePatterns := [lit "README.md"];
     generationMarker := DEFAULT_MARKER |}.

Definition sampleWorld (mode : UpdateMode) : World :=
  {| inputs := inr (sampleInputs mode);
     repoOwner := lit "owner";
     repoName := lit "repo";
     pull_request := Some samplePull;
     localeCompare := codeUnitCompare;
     minimatch := exactMatch;
     listFiles := inr sampleFiles;
     listCommits := inr [];
     api := answersPadded;
     update := None |}.

(** Attempt [k] fails with an error the classifier takes as transient. *)
Definition transientAt (api : Z -> ApiOutcome) (k : Z) : Prop :=
  exists message, tryBody (api k) = inr message
                  /\ isRetryableError message = true.

(** A generator that is rate limited once and then answers with blank
    text. *)
Definition limitedThenBlank (k : Z) : ApiOutcome :=
  if k =? 1 then Throws (lit "429 Rate limit exceeded") else Responds (lit "  ").


(* ------------------------------------------------------------------ *)
(** ** The embedding on the repository's own test cases                *)
(* ------------------------------------------------------------------ *)

Section UnitTests.

Example test_default_end_marker :
  getMarkers DEFAULT_MARKER = {| start := DEFAULT_MARKER; end_ := END_DEFAULT |}.
Proof. reflexivity. Qed.

Example test_hasGeneratedContent_empty :
  hasGeneratedContent [] DEFAULT_MARKER = false.
Proof. reflexivity. Qed.

Example test_hasGeneratedContent_only_start :
  hasGeneratedContent (DEFAULT_MARKER ++ [LF] ++ lit "Some content") DEFAULT_MARKER
  = false.
Proof. reflexivity. Qed.

Example test_hasGeneratedContent_both :
  hasGeneratedContent
    (DEFAULT_MARKER ++ [LF] ++ lit "Generated content" ++ [LF] ++ END_DEFAULT)
    DEFAULT_MARKER = true.
Proof. reflexivity. Qed.

Example test_parseDescription_no_markers :
  parseDescription (lit "Regular content") DEFAULT_MARKER
  = degenerate (lit "Regular content").
Proof. reflexivity. Qed.

Example test_parseDescription_markers :
  parseDescription
    (lit "Before content" ++ [LF; LF] ++ DEFAULT_MARKER ++ [LF] ++ lit "Generated"
       ++ [LF] ++ END_DEFAULT ++ [LF; LF] ++ lit "After content")
    DEFAULT_MARKER
  = {| beforeMarker := lit "Before content";
       generatedContent := lit "Generated";
       afterMarker := lit "After content" |}.
Proof. reflexivity. Qed.

Example test_shouldGenerate_whitespace :
  generate (shouldGenerate (lit "   " ++ [LF; LF] ++ lit "  ") empty DEFAULT_MARKER)
  = true.
Proof. reflexivity. Qed.

Example test_smart_subsequent_run :
  applyUpdateMode userNotesDocument (lit "New") smart DEFAULT_MARKER
  = lit "User notes" ++ [LF; LF] ++ DEFAULT_MARKER ++ [LF; LF] ++ lit "New"
      ++ [LF; LF] ++ END_DEFAULT.
Proof. reflexivity. Qed.

(** [fetchPRDiff] on the two mocked files with a budget of 10: the first
    patch is cut, the second is dropped. *)
Example test_truncate_large_diffs :
  map patch
    (reduceFiles codeUnitCompare
       [fileOf (lit "src/index.ts") (lit "+new line" ++ [LF] ++ lit "-old line");
        fileOf (lit "package-lock.json") (lit "large patch content")] 10)
  = [None; Some (lit "+new line" ++ [LF; LF] ++ lit "... (truncated)")].
Proof. reflexivity. Qed.

(** Three files with patches of 500, 300 and 100 code units and a budget of
    350: the largest patch is cut to 350 code units and marked, the two
    others lose their patch, and the three file names remain. *)
Example test_three_files_budget_350 :
  let files := [fileOf (lit "a") (repeat 120%N 500);
                fileOf (lit "b") (repeat 121%N 300);
                fileOf (lit "c") (repeat 122%N 100)] in
  map filename (truncatePatches codeUnitCompare files 350)
  = [lit "a"; lit "b"; lit "c"]
  /\ map patch (truncatePatches codeUnitCompare files 350)
     = [Some (repeat 120%N 350 ++ TRUNCATED); None; None]
  /\ totalDiffSize (truncatePatches codeUnitCompare files 350) = 366.
Proof. vm_compute. repeat split. Qed.

Example test_isRetryableError :
  isRetryableError (lit "429 Too Many Requests: Rate Limit exceeded") = true
  /\ isRetryableError (lit "[503 Service Unavailable]") = true
  /\ isRetryableError (lit "Request timed out") = true
  /\ isRetryableError (lit "API key not valid") = false
  /\ isRetryableError (lit "No response received from Gemini API") = false.
Proof. repeat split. Qed.

End UnitTests.

(* ------------------------------------------------------------------ *)
(** ** Facts about white space and [trim]                              *)
(* ------------------------------------------------------------------ *)

Section TrimFacts.

Lemma len_app (s t : jsstring) : len (s ++ t) = len s + len t.
Proof. unfold len. rewrite length_app. lia. Qed.

Lemma len_nonneg (s : jsstring) : 0 <= len s.
Proof. unfold len. lia. Qed.

Lemma len_cons (c : codeUnit) (s : jsstring) : len (c :: s) = 1 + len s.
Proof. unfold len. simpl List.length. lia. Qed.

Lemma len_zero (s : jsstring) : len s = 0 -> s = [].
Proof. destruct s; [reflexivity | unfold len; simpl; lia]. Qed.

Lemma trimStart_split (s : jsstring) :
  exists a, s = a ++ trimStart s /\ allWhite a = true.
Proof.
  induction s as [|c s [a [Hs Ha]]]; simpl.
  - exists []. split; reflexivity.
  - destruct (isWhite c) eqn:Hc.
    + exists (c :: a). simpl. rewrite Hc, Ha. split; [f_equal; exact Hs | reflexivity].
    + exists []. split; reflexivity.
Qed.

Lemma trimStart_head (s : jsstring) c r :
  trimStart s = c :: r -> isWhite c = false.
Proof.
  induction s as [|d s IH]; simpl; [discriminate|].
  destruct (isWhite d) eqn:Hd; [exact IH|].
  intros H. injection H as -> _. exact Hd.
Qed.

Lemma trimStart_white_app (a s : jsstring) :
  allWhite a = true -> trimStart (a ++ s) = trimStart s.
Proof.
  induction a as [|c a IH]; simpl; [reflexivity|].
  intros H. apply andb_true_iff in H as [Hc Ha]. rewrite Hc. auto.
Qed.

Lemma trimStart_nil_iff (s : jsstring) :
  trimStart s = [] <-> allWhite s = true.
Proof.
  induction s as [|c s IH]; simpl; [tauto|].
  destruct (isWhite c); simpl; [exact IH|].
  split; discriminate.
Qed.

Lemma trimStart_fixed (c : codeUnit) (s : jsstring) :
  isWhite c = false -> trimStart (c :: s) = c :: s.
Proof. intros H. simpl. rewrite H. reflexivity. Qed.

Lemma trimStart_idem (s : jsstring) : trimStart (trimStart s) = trimStart s.
Proof.
  destruct (trimStart s) as [|c r] eqn:E; [reflexivity|].
  apply trimStart_fixed. eapply trimStart_head; eauto.
Qed.

Lemma trimStart_app (s t : jsstring) :
  trimStart s <> [] -> trimStart (s ++ t) = trimStart s ++ t.
Proof.
  induction s as [|c s IH]; simpl; [congruence|].
  destruct (isWhite c); [exact IH | reflexivity].
Qed.

Lemma allWhite_app (s t : jsstring) :
  allWhite (s ++ t) = allWhite s && allWhite t.
Proof. apply forallb_app. Qed.

Lemma allWhite_rev (s : jsstring) : allWhite (rev s) = allWhite s.
Proof.
  induction s as [|c s IH]; [reflexivity|].
  simpl. rewrite allWhite_app, IH. simpl. rewrite andb_true_r. apply andb_comm.
Qed.

Lemma trimEnd_split (s : jsstring) :
  exists b, s = trimEnd s ++ b /\ allWhite b = true.
Proof.
  destruct (trimStart_split (rev s)) as [a [Hs Ha]].
  exists (rev a). split.
  - unfold trimEnd. rewrite <- rev_app_distr, <- Hs, rev_involutive. reflexivity.
  - rewrite allWhite_rev. exact Ha.
Qed.

Lemma trimEnd_white_app (s b : jsstring) :
  allWhite b = true -> trimEnd (s ++ b) = trimEnd s.
Proof.
  intros H. unfold trimEnd. rewrite rev_app_distr, trimStart_white_app; [reflexivity|].
  rewrite allWhite_rev. exact H.
Qed.

Lemma trimEnd_nil_iff (s : jsstring) : trimEnd s = [] <-> allWhite s = true.
Proof.
  unfold trimEnd. rewrite <- (allWhite_rev s), <- trimStart_nil_iff.
  split; intros H.
  - apply (f_equal (@rev codeUnit)) in H. rewrite rev_involutive in H. exact H.
  - rewrite H. reflexivity.
Qed.

Lemma trimEnd_idem (s : jsstring) : trimEnd (trimEnd s) = trimEnd s.
Proof. unfold trimEnd. rewrite rev_involutive, trimStart_idem. reflexivity. Qed.

Lemma trim_split (s : jsstring) :
  exists a b, s = a ++ trim s ++ b /\ allWhite a = true /\ allWhite b = true.
Proof.
  destruct (trimStart_split s) as [a [Hs Ha]].
  destruct (trimEnd_split (trimStart s)) as [b [Ht Hb]].
  exists a, b. unfold trim. rewrite <- Ht. auto.
Qed.

Lemma trim_nil_iff (s : jsstring) : trim s = [] <-> allWhite s = true.
Proof.
  unfold trim. rewrite trimEnd_nil_iff. split; intros H.
  - destruct (trimStart_split s) as [a [Hs Ha]].
    rewrite Hs, allWhite_app, Ha, H. reflexivity.
  - destruct (trimStart s) as [|c r] eqn:E; [reflexivity|].
    apply trimStart_nil_iff in H. congruence.
Qed.

Lemma trim_white_l (a s : jsstring) :
  allWhite a = true -> trim (a ++ s) = trim s.
Proof. intros H. unfold trim. rewrite trimStart_white_app by exact H. reflexivity. Qed.

Lemma trim_white_r (s b : jsstring) :
  allWhite b = true -> trim (s ++ b) = trim s.
Proof.
  intros H. unfold trim.
  destruct (trimStart s) as [|c r] eqn:E.
  - assert (Hs : allWhite (s ++ b) = true).
    { rewrite allWhite_app, H, andb_true_r. apply trimStart_nil_iff. exact E. }
    apply trimStart_nil_iff in Hs. rewrite Hs. reflexivity.
  - rewrite trimStart_app by congruence. rewrite E.
    apply trimEnd_white_app. exact H.
Qed.

Lemma trim_head (s : jsstring) c r : trim s = c :: r -> isWhite c = false.
Proof.
  unfold trim. intros H.
  destruct (trimEnd_split (trimStart s)) as [b [Hs _]].
  rewrite H in Hs. simpl in Hs. eapply trimStart_head. exact Hs.
Qed.

Lemma trim_idem (s : jsstring) : trim (trim s) = trim s.
Proof.
  destruct (trim s) as [|c r] eqn:E; [reflexivity|].
  pose proof (trim_head _ _ _ E) as Hc.
  unfold trim at 1. rewrite trimStart_fixed by exact Hc.
  rewrite <- E. unfold trim. apply trimEnd_idem.
Qed.

Lemma trim_In (s : jsstring) c : In c (trim s) -> In c s.
Proof.
  intros H. destruct (trim_split s) as [a [b [Hs _]]].
  rewrite Hs. apply in_or_app. right. apply in_or_app. left. exact H.
Qed.

Lemma allWhite_not_In (s : jsstring) c :
  allWhite s = true -> isWhite c = false -> ~ In c s.
Proof.
  intros Hs Hc Hin. unfold allWhite in Hs. rewrite forallb_forall in Hs.
  apply Hs in Hin. congruence.
Qed.

Lemma truthy_len (s : jsstring) : (len s >? 0) = truthy s.
Proof. destruct s; [reflexivity|]. unfold len. simpl. apply Z.gtb_lt. lia. Qed.

Lemma truthy_false (s : jsstring) : truthy s = false -> s = [].
Proof. destruct s; [reflexivity | discriminate]. Qed.

End TrimFacts.

(* ------------------------------------------------------------------ *)
(** ** Facts about searching                                           *)
(* ------------------------------------------------------------------ *)

Section SearchFacts.

Lemma streq_eq (s t : jsstring) : streq s t = true <-> s = t.
Proof.
  revert t. induction s as [|a s IH]; destruct t as [|b t]; simpl;
    try (split; (reflexivity || discriminate)).
  rewrite andb_true_iff, N.eqb_eq, IH. split.
  - intros [-> ->]. reflexivity.
  - intros H. injection H as -> ->. auto.
Qed.

Lemma startsWith_iff (s t : jsstring) :
  startsWith s t = true <-> exists r, s = t ++ r.
Proof.
  revert s. induction t as [|a t IH]; intros s; destruct s as [|b s];
    cbn [startsWith].
  - split; [intros _; exists []; reflexivity | reflexivity].
  - split; [intros _; exists (b :: s); reflexivity | reflexivity].
  - split; [discriminate | intros [r Hr]; discriminate].
  - rewrite andb_true_iff, N.eqb_eq, IH. split.
    + intros [-> [r ->]]. exists r. reflexivity.
    + intros [r Hr]. injection Hr as -> ->. eauto.
Qed.

Lemma startsWith_app (t r : jsstring) : startsWith (t ++ r) t = true.
Proof. apply startsWith_iff. eauto. Qed.

Lemma startsWith_nil_r (s : jsstring) : startsWith s [] = true.
Proof. destruct s; reflexivity. Qed.

Lemma startsWith_len (s t : jsstring) : startsWith s t = true -> len t <= len s.
Proof.
  intros H. apply startsWith_iff in H as [r ->]. rewrite len_app.
  pose proof (len_nonneg r). lia.
Qed.

(** A needle without the separator [c] that starts in [a] stays in [a]. *)
Lemma startsWith_sep (a b t : jsstring) (c : codeUnit) :
  ~ In c t -> startsWith (a ++ c :: b) t = startsWith a t.
Proof.
  revert t. induction a as [|x a IH]; intros t Hc; simpl.
  - destruct t as [|y t]; [reflexivity|]. simpl.
    destruct (N.eqb_spec y c) as [->|_]; [|reflexivity].
    exfalso. apply Hc. left. reflexivity.
  - destruct t as [|y t]; [reflexivity|]. simpl.
    rewrite IH; [reflexivity|]. intros H. apply Hc. right. exact H.
Qed.

Lemma includes_iff (s t : jsstring) :
  includes s t = true <-> exists pre post, s = pre ++ t ++ post.
Proof.
  induction s as [|x s IH].
  - cbn [includes]. rewrite orb_false_r, startsWith_iff. split.
    + intros [r Hr]. exists [], r. exact Hr.
    + intros [pre [post H]]. destruct pre; [|discriminate]. eauto.
  - cbn [includes]. rewrite orb_true_iff, startsWith_iff, IH. split.
    + intros [[r Hr] | [pre [post H]]].
      * exists [], r. exact Hr.
      * exists (x :: pre), post. simpl. f_equal. exact H.
    + intros [pre [post H]]. destruct pre as [|y pre].
      * left. eauto.
      * right. injection H as _ H. eauto.
Qed.

Lemma indexOf_range (s t : jsstring) :
  indexOf s t = -1 \/ 0 <= indexOf s t <= len s.
Proof.
  induction s as [|x s IH]; cbn [indexOf].
  - destruct (startsWith [] t); [right; unfold len; simpl; lia | left; reflexivity].
  - destruct (startsWith (x :: s) t).
    + right. pose proof (len_nonneg (x :: s)). lia.
    + destruct (Z.eqb_spec (indexOf s t) (-1)); [left; reflexivity|].
      right. rewrite len_cons. lia.
Qed.

Lemma indexOf_includes (s t : jsstring) :
  includes s t = negb (indexOf s t =? -1).
Proof.
  induction s as [|x s IH]; cbn [indexOf includes].
  - destruct (startsWith [] t); reflexivity.
  - destruct (startsWith (x :: s) t); [reflexivity|]. simpl. rewrite IH.
    destruct (Z.eqb_spec (indexOf s t) (-1)) as [E|E]; [reflexivity|].
    simpl. symmetry. destruct (indexOf_range s t) as [H|H]; [congruence|].
    apply negb_true_iff, Z.eqb_neq. lia.
Qed.

Lemma indexOf_prefix (t r : jsstring) : indexOf (t ++ r) t = 0.
Proof.
  destruct (t ++ r) eqn:E; cbn [indexOf]; rewrite <- E, startsWith_app; reflexivity.
Qed.

(** The position found is an occurrence. *)
Lemma indexOf_occurrence (s t : jsstring) :
  0 <= indexOf s t ->
  startsWith (skipn (Z.to_nat (indexOf s t)) s) t = true.
Proof.
  induction s as [|x s IH]; cbn [indexOf].
  - destruct (startsWith [] t) eqn:E; [intros _; exact E | lia].
  - destruct (startsWith (x :: s) t) eqn:E; [intros _; exact E|].
    destruct (Z.eqb_spec (indexOf s t) (-1)) as [F|F]; [lia|].
    intros _. destruct (indexOf_range s t) as [H|H]; [congruence|].
    replace (Z.to_nat (indexOf s t + 1)) with (S (Z.to_nat (indexOf s t))) by lia.
    simpl. apply IH. lia.
Qed.

(** Searching from a position not after the first occurrence finds it. *)
Lemma indexOf_skipn (s t : jsstring) (k : nat) :
  Z.of_nat k <= indexOf s t ->
  indexOf (skipn k s) t = indexOf s t - Z.of_nat k.
Proof.
  revert s. induction k as [|k IH]; intros s Hk.
  - simpl. lia.
  - destruct s as [|x s]; cbn [indexOf] in *.
    + destruct (startsWith [] t); lia.
    + destruct (startsWith (x :: s) t); [lia|].
      destruct (Z.eqb_spec (indexOf s t) (-1)); [lia|].
      simpl skipn. rewrite IH by lia. lia.
Qed.

Lemma indexOf_skipn_none (s t : jsstring) (k : nat) :
  indexOf s t = -1 -> indexOf (skipn k s) t = -1.
Proof.
  revert s. induction k as [|k IH]; intros s H; [exact H|].
  destruct s as [|x s]; [exact H|].
  simpl skipn. apply IH. cbn [indexOf] in H.
  destruct (startsWith (x :: s) t); [lia|].
  destruct (Z.eqb_spec (indexOf s t) (-1)); [assumption | ].
  destruct (indexOf_range s t); lia.
Qed.

(** Across a separator that the needle does not contain, the search first
    exhausts the left part and then continues in the right part. *)
Lemma indexOf_sep (a b t : jsstring) (c : codeUnit) :
  ~ In c t -> t <> [] -> includes a t = false ->
  indexOf (a ++ c :: b) t =
    if indexOf b t =? -1 then -1 else len a + 1 + indexOf b t.
Proof.
  intros Hc Ht. induction a as [|x a IH]; intros Ha.
  - simpl app. cbn [indexOf].
    replace (startsWith (c :: b) t) with false.
    + destruct (Z.eqb_spec (indexOf b t) (-1)); [reflexivity|].
      unfold len. simpl List.length. lia.
    + destruct t as [|y t]; [congruence|]. simpl.
      destruct (N.eqb_spec y c) as [->|_]; [|reflexivity].
      exfalso. apply Hc. left. reflexivity.
  - cbn [includes] in Ha. apply orb_false_iff in Ha as [Hx Ha].
    simpl app. cbn [indexOf].
    change (x :: a ++ c :: b) with ((x :: a) ++ c :: b).
    rewrite startsWith_sep by exact Hc. rewrite Hx.
    rewrite IH by exact Ha.
    destruct (Z.eqb_spec (indexOf b t) (-1)) as [E|E]; [reflexivity|].
    destruct (indexOf_range b t) as [F|F]; [congruence|].
    pose proof (len_nonneg a).
    destruct (Z.eqb_spec (len a + 1 + indexOf b t) (-1)); [lia|].
    rewrite len_cons. lia.
Qed.

Lemma includes_nil_l (t : jsstring) : t <> [] -> includes [] t = false.
Proof. destruct t; [congruence | reflexivity]. Qed.

(** [substring] with ordered, in-range arguments is a plain slice. *)
Lemma substring_slice (a b c : jsstring) :
  substring (a ++ b ++ c) (len a) (len a + len b) = b.
Proof.
  unfold substring, clampIndex. rewrite !len_app.
  pose proof (len_nonneg a). pose proof (len_nonneg b). pose proof (len_nonneg c).
  replace (Z.min (Z.min (Z.max (len a) 0) (len a + (len b + len c)))
                 (Z.min (Z.max (len a + len b) 0) (len a + (len b + len c))))
    with (len a) by lia.
  replace (Z.max (Z.min (Z.max (len a) 0) (len a + (len b + len c)))
                 (Z.min (Z.max (len a + len b) 0) (len a + (len b + len c))))
    with (len a + len b) by lia.
  unfold len. rewrite Nat2Z.id.
  replace (Z.to_nat (Z.of_nat (List.length a) + Z.of_nat (List.length b)
                      - Z.of_nat (List.length a)))
    with (List.length b) by lia.
  rewrite skipn_app, skipn_all, Nat.sub_diag. simpl.
  rewrite firstn_app, firstn_all, Nat.sub_diag. simpl. apply app_nil_r.
Qed.

Lemma substring_prefix (s : jsstring) (k : Z) :
  0 <= k <= len s -> substring s 0 k = firstn (Z.to_nat k) s.
Proof.
  intros H. unfold substring, clampIndex.
  replace (Z.min (Z.min (Z.max 0 0) (len s)) (Z.min (Z.max k 0) (len s))) with 0 by lia.
  replace (Z.max (Z.min (Z.max 0 0) (len s)) (Z.min (Z.max k 0) (len s))) with k by lia.
  simpl. rewrite Z.sub_0_r. reflexivity.
Qed.

Lemma substringFrom_suffix (s : jsstring) (k : Z) :
  0 <= k -> substringFrom s k = skipn (Z.to_nat k) s.
Proof.
  intros H. unfold substringFrom, substring, clampIndex.
  pose proof (len_nonneg s).
  destruct (Z.le_gt_cases k (len s)) as [L|L].
  - replace (Z.min (Z.min (Z.max k 0) (len s)) (Z.min (Z.max (len s) 0) (len s)))
      with k by lia.
    replace (Z.max (Z.min (Z.max k 0) (len s)) (Z.min (Z.max (len s) 0) (len s)))
      with (len s) by lia.
    apply firstn_all2. rewrite length_skipn. unfold len in *. lia.
  - replace (Z.min (Z.min (Z.max k 0) (len s)) (Z.min (Z.max (len s) 0) (len s)))
      with (len s) by lia.
    replace (Z.max (Z.min (Z.max k 0) (len s)) (Z.min (Z.max (len s) 0) (len s)))
      with (len s) by lia.
    rewrite Z.sub_diag. simpl.
    symmetry. apply skipn_all2. unfold len in *. lia.
Qed.

End SearchFacts.

(* ------------------------------------------------------------------ *)
(** ** Facts about the derived markers                                 *)
(* ------------------------------------------------------------------ *)

Section MarkerFacts.

Lemma count_app (c : codeUnit) (s t : jsstring) :
  count c (s ++ t) = (count c s + count c t)%nat.
Proof. unfold count. rewrite filter_app, length_app. reflexivity. Qed.

Lemma count_cons_same (c : codeUnit) (s : jsstring) :
  count c (c :: s) = S (count c s).
Proof. unfold count. simpl. rewrite N.eqb_refl. reflexivity. Qed.

Lemma count_white (c : codeUnit) (s : jsstring) :
  allWhite s = true -> isWhite c = false -> count c s = 0%nat.
Proof.
  intros Hs Hc. induction s as [|x s IH]; [reflexivity|].
  simpl in Hs. apply andb_true_iff in Hs as [Hx Hs].
  unfold count in *. simpl.
  destruct (N.eqb_spec c x) as [->|_]; [congruence | auto].
Qed.

Lemma includes_count (s t : jsstring) (c : codeUnit) :
  includes s t = true -> (count c t <= count c s)%nat.
Proof.
  intros H. apply includes_iff in H as [pre [post ->]].
  rewrite !count_app. lia.
Qed.

Lemma endsWith_iff (s t : jsstring) :
  endsWith s t = true <-> exists q, s = q ++ t.
Proof.
  unfold endsWith. rewrite startsWith_iff. split; intros [r H].
  - exists (rev r). apply (f_equal (@rev codeUnit)) in H.
    rewrite rev_involutive, rev_app_distr, rev_involutive in H. exact H.
  - exists (rev r). rewrite H, rev_app_distr. reflexivity.
Qed.

Lemma replaceClosing_split (s : jsstring) :
  exists r, s = replaceClosing s ++ r /\
            (r = [] \/ exists w, r = w ++ lit "-->" /\ allWhite w = true).
Proof.
  induction s as [|c s [r [Hr Hm]]]; cbn [replaceClosing].
  - exists []. destruct (matchesClosingAtEnd []); auto.
  - destruct (matchesClosingAtEnd (c :: s)) eqn:E.
    + exists (c :: s). split; [reflexivity|]. right.
      unfold matchesClosingAtEnd in E. apply streq_eq in E.
      destruct (trimStart_split (c :: s)) as [w [Hs Hw]].
      exists w. rewrite <- E. auto.
    + exists r. split; [simpl; f_equal; exact Hr | exact Hm].
Qed.

Lemma replaceClosing_prefix (s : jsstring) :
  exists r, s = replaceClosing s ++ r.
Proof. destruct (replaceClosing_split s) as [r [H _]]. eauto. Qed.

(** What [baseMarker] is made of comes from the configured marker. *)
Lemma base_In (marker : jsstring) (c : codeUnit) :
  In c (trim (replaceClosing marker)) -> In c marker.
Proof.
  intros H. apply trim_In in H.
  destruct (replaceClosing_prefix marker) as [r Hr].
  rewrite Hr. apply in_or_app. left. exact H.
Qed.

(** Deriving [baseMarker] only removes white space and the characters of
    the closing delimiter. *)
Lemma base_count (marker : jsstring) (c : codeUnit) :
  isWhite c = false -> c <> 45%N -> c <> 62%N ->
  count c (trim (replaceClosing marker)) = count c marker.
Proof.
  intros Hc H45 H62.
  destruct (replaceClosing_split marker) as [r [Hr Hm]].
  destruct (trim_split (replaceClosing marker)) as [a [b [Ht [Ha Hb]]]].
  assert (Hcr : count c r = 0%nat).
  { destruct Hm as [->|[w [-> Hw]]]; [reflexivity|].
    rewrite count_app, (count_white c w Hw Hc). unfold count. simpl.
    destruct (N.eqb_spec c 45); [congruence|].
    destruct (N.eqb_spec c 62); [congruence|]. reflexivity. }
  rewrite Hr at 2. rewrite Ht at 2.
  rewrite !count_app, Hcr, (count_white c a Ha Hc), (count_white c b Hb Hc). lia.
Qed.

Lemma end_count_e (marker : jsstring) :
  count 101%N (end_ (getMarkers marker))
  = S (count 101%N (trim (replaceClosing marker))).
Proof.
  unfold getMarkers. cbn [end_]. rewrite !count_app.
  replace (count 101%N END_MARKER_SUFFIX) with 1%nat by reflexivity.
  replace (count 101%N (lit " -->")) with 0%nat by reflexivity. lia.
Qed.

(** The end marker never occurs inside the start marker. *)
Lemma end_not_in_start (marker : jsstring) :
  includes marker (end_ (getMarkers marker)) = false.
Proof.
  destruct (includes marker (end_ (getMarkers marker))) eqn:E; [|reflexivity].
  apply (includes_count _ _ 101%N) in E. rewrite end_count_e in E.
  rewrite (base_count marker 101%N) in E by (reflexivity || discriminate). lia.
Qed.

Lemma end_has_gt (marker : jsstring) : In 62%N (end_ (getMarkers marker)).
Proof. simpl end_. apply in_or_app. right. simpl. tauto. Qed.

Lemma end_nonempty (marker : jsstring) : end_ (getMarkers marker) <> [].
Proof. intros H. pose proof (end_has_gt marker) as G. rewrite H in G. exact G. Qed.

Lemma end_no_LF (marker : jsstring) :
  ~ In LF marker -> ~ In LF (end_ (getMarkers marker)).
Proof.
  intros H G. simpl end_ in G. apply in_app_or in G as [G|G].
  - apply H. eapply base_In. exact G.
  - simpl in G. unfold LF in G.
    repeat (destruct G as [G|G]; [discriminate|]). exact G.
Qed.

(** A string that includes the end marker is not blank. *)
Lemma includes_end_not_blank (s marker : jsstring) :
  includes s (end_ (getMarkers marker)) = true -> trim s <> [].
Proof.
  intros H E. apply trim_nil_iff in E. apply includes_iff in H as [pre [post Hs]].
  apply (allWhite_not_In s 62%N E); [reflexivity|].
  rewrite Hs. apply in_or_app. right. apply in_or_app. left. apply end_has_gt.
Qed.

Lemma trimStart_keeps (q rest : jsstring) (x : codeUnit) :
  isWhite x = false -> exists u, trimStart (q ++ x :: rest) = u ++ x :: rest.
Proof.
  intros Hx. induction q as [|c q [u Hu]]; simpl.
  - rewrite Hx. exists []. reflexivity.
  - destruct (isWhite c).
    + exists u. exact Hu.
    + exists (c :: q). reflexivity.
Qed.

Lemma matchesClosing_white (w : jsstring) :
  allWhite w = true -> matchesClosingAtEnd (w ++ lit "-->") = true.
Proof.
  intros H. unfold matchesClosingAtEnd. rewrite trimStart_white_app by exact H.
  reflexivity.
Qed.

Lemma matchesClosing_long (q w : jsstring) (x : codeUnit) :
  isWhite x = false -> matchesClosingAtEnd (q ++ x :: w ++ lit "-->") = false.
Proof.
  intros Hx. unfold matchesClosingAtEnd.
  destruct (trimStart_keeps q (w ++ lit "-->") x Hx) as [u Hu]. rewrite Hu.
  destruct (streq (u ++ x :: w ++ lit "-->") (lit "-->")) eqn:E; [|reflexivity].
  apply streq_eq in E. apply (f_equal (@List.length codeUnit)) in E.
  rewrite length_app in E. simpl in E. rewrite length_app in E. simpl in E. lia.
Qed.

(** The regular expression removes the closing delimiter together with all
    the white space before it. *)
Lemma replaceClosing_closed (q w : jsstring) (x : codeUnit) :
  isWhite x = false -> allWhite w = true ->
  replaceClosing (q ++ x :: w ++ lit "-->") = q ++ [x].
Proof.
  intros Hx Hw. induction q as [|c q IH].
  - simpl app. cbn [replaceClosing].
    pose proof (matchesClosing_long [] w x Hx) as M. simpl app in M.
    rewrite M. f_equal.
    destruct (w ++ lit "-->") eqn:E; cbn [replaceClosing];
      rewrite <- E, matchesClosing_white by exact Hw; reflexivity.
  - simpl app. cbn [replaceClosing].
    pose proof (matchesClosing_long (c :: q) w x Hx) as M. simpl app in M.
    rewrite M. f_equal. exact IH.
Qed.

Lemma trimEnd_shape (s : jsstring) :
  trimEnd s = [] \/ exists q x, trimEnd s = q ++ [x] /\ isWhite x = false.
Proof.
  unfold trimEnd. destruct (trimStart (rev s)) as [|c r] eqn:E.
  - left. reflexivity.
  - right. exists (rev r), c. split; [reflexivity|].
    eapply trimStart_head. exact E.
Qed.

End MarkerFacts.

(* ------------------------------------------------------------------ *)
(** ** The update-mode policy                                          *)
(* ------------------------------------------------------------------ *)

(** C5.  [shouldGenerate] answers [true] exactly when the mode is not
    [empty] or the description is blank: the empty description in mode
    [empty] is generated for, a description that is not blank in mode
    [empty] is not, and the modes [append], [replace] and [smart] always
    generate. *)
Theorem shouldGenerate_decision (d marker : jsstring) :
  (forall m, generate (shouldGenerate d m marker) = true
             <-> (m <> empty \/ trim d = []))
  /\ generate (shouldGenerate [] empty marker) = true
  /\ (trim d <> [] -> generate (shouldGenerate d empty marker) = false)
  /\ generate (shouldGenerate d append marker) = true
  /\ generate (shouldGenerate d replace marker) = true
  /\ generate (shouldGenerate d smart marker) = true.
Proof.
  repeat split; try reflexivity.
  - destruct m; simpl; intros H; try (left; discriminate).
    right. destruct (Z.eqb_spec (len (trim d)) 0) as [E|E]; [|discriminate].
    apply len_zero. exact E.
  - destruct m; simpl; intros [H|H]; try reflexivity; try congruence.
    rewrite H. reflexivity.
  - intros H. simpl. destruct (Z.eqb_spec (len (trim d)) 0) as [E|E]; [|reflexivity].
    apply len_zero in E. contradiction.
Qed.

Lemma shouldGenerate_decision_witness :
  generate (shouldGenerate (lit "non-empty") empty DEFAULT_MARKER) = false.
Proof.
  apply (shouldGenerate_decision (lit "non-empty") DEFAULT_MARKER).
  vm_compute. discriminate.
Defined.

(** C6.  In mode [append] a description that is not blank is kept, trimmed,
    and followed by a blank line, the separator ["---"], a blank line and
    the wrapped content; a blank description gives the wrapped content
    alone. *)
Theorem applyUpdateMode_append (existing generated marker : jsstring) :
  (trim existing <> [] ->
     applyUpdateMode existing generated append marker
     = trim existing ++ [LF; LF] ++ lit "---" ++ [LF; LF]
         ++ wrapWithMarkers generated marker)
  /\ (trim existing = [] ->
        applyUpdateMode existing generated append marker
        = wrapWithMarkers generated marker).
Proof.
  unfold applyUpdateMode. split; intros H.
  - destruct (trim existing); [congruence | reflexivity].
  - rewrite H. reflexivity.
Qed.

Lemma applyUpdateMode_append_witness :
  applyUpdateMode (lit "Hello") (lit "World") append DEFAULT_MARKER
  = lit "Hello" ++ [LF; LF] ++ lit "---" ++ [LF; LF]
      ++ wrapWithMarkers (lit "World") DEFAULT_MARKER
  /\ applyUpdateMode [LF] (lit "World") append DEFAULT_MARKER
     = wrapWithMarkers (lit "World") DEFAULT_MARKER.
Proof.
  split.
  - apply (proj1 (applyUpdateMode_append (lit "Hello") (lit "World") DEFAULT_MARKER)).
    vm_compute. discriminate.
  - apply (proj2 (applyUpdateMode_append [LF] (lit "World") DEFAULT_MARKER)).
    reflexivity.
Defined.

(* ------------------------------------------------------------------ *)
(** ** The marker codec                                                *)
(* ------------------------------------------------------------------ *)

Lemma validMarker_no_LF (marker : jsstring) :
  validMarker marker = true -> ~ In LF marker.
Proof.
  unfold validMarker. intros H G. apply negb_true_iff in H.
  assert (E : existsb (N.eqb LF) marker = true).
  { apply existsb_exists. exists LF. split; [exact G | apply N.eqb_refl]. }
  congruence.
Qed.

(** Where the end marker is found in a wrapped block. *)
Lemma indexOf_end_wrapped (X marker : jsstring) :
  validMarker marker = true ->
  includes X (end_ (getMarkers marker)) = false ->
  indexOf (wrapWithMarkers X marker) (end_ (getMarkers marker))
  = len marker + len X + 4.
Proof.
  intros Hv HX. apply validMarker_no_LF in Hv.
  pose proof (end_no_LF marker Hv) as HLF.
  pose proof (end_nonempty marker) as Hne.
  set (E := end_ (getMarkers marker)) in *.
  assert (H0 : indexOf E E = 0).
  { rewrite <- (app_nil_r E) at 1. apply indexOf_prefix. }
  assert (H1 : indexOf (LF :: E) E = 1).
  { pose proof (indexOf_sep [] E E LF HLF Hne (includes_nil_l E Hne)) as H.
    simpl app in H. rewrite H, H0. reflexivity. }
  assert (H2 : indexOf (X ++ LF :: LF :: E) E = len X + 2).
  { rewrite (indexOf_sep X (LF :: E) E LF HLF Hne HX), H1. simpl. lia. }
  assert (H3 : indexOf (LF :: X ++ LF :: LF :: E) E = len X + 3).
  { pose proof (indexOf_sep [] (X ++ LF :: LF :: E) E LF HLF Hne
                  (includes_nil_l E Hne)) as H.
    simpl app in H. rewrite H, H2.
    pose proof (len_nonneg X).
    destruct (Z.eqb_spec (len X + 2) (-1)); [lia|]. change (len []) with 0. lia. }
  unfold wrapWithMarkers. change (start (getMarkers marker)) with marker.
  fold E. simpl app.
  rewrite (indexOf_sep marker (LF :: X ++ LF :: LF :: E) E LF HLF Hne
             (end_not_in_start marker)), H3.
  pose proof (len_nonneg X).
  destruct (Z.eqb_spec (len X + 3) (-1)); lia.
Qed.

Lemma roundtrip_end_free (X marker : jsstring) :
  validMarker marker = true ->
  includes X (end_ (getMarkers marker)) = false ->
  parseDescription (wrapWithMarkers X marker) marker
  = {| beforeMarker := []; generatedContent := trim X; afterMarker := [] |}.
Proof.
  intros Hv HX. unfold parseDescription.
  rewrite (indexOf_end_wrapped X marker Hv HX).
  change (start (getMarkers marker)) with marker.
  assert (Hs : indexOf (wrapWithMarkers X marker) marker = 0).
  { unfold wrapWithMarkers. apply indexOf_prefix. }
  rewrite Hs.
  pose proof (len_nonneg X). pose proof (len_nonneg marker).
  replace ((0 =? -1) || (len marker + len X + 4 =? -1)
           || (0 >=? len marker + len X + 4)) with false.
  2:{ symmetry. rewrite !orb_false_iff. repeat split.
      - apply Z.eqb_neq. lia.
      - rewrite Z.geb_leb. apply Z.leb_gt. lia. }
  set (E := end_ (getMarkers marker)).
  assert (Hw : wrapWithMarkers X marker = marker ++ ([LF; LF] ++ X ++ [LF; LF]) ++ E).
  { unfold wrapWithMarkers. change (start (getMarkers marker)) with marker.
    fold E. rewrite <- !app_assoc. reflexivity. }
  f_equal.
  - rewrite substring_prefix by (pose proof (len_nonneg (wrapWithMarkers X marker)); lia).
    reflexivity.
  - rewrite Hw. replace (len marker + len X + 4)
      with (len marker + len ([LF; LF] ++ X ++ [LF; LF])).
    2:{ rewrite !len_app. change (len [LF; LF]) with 2. lia. }
    rewrite Z.add_0_l, substring_slice.
    rewrite trim_white_l by reflexivity. apply trim_white_r. reflexivity.
  - rewrite Hw. rewrite substringFrom_suffix by (pose proof (len_nonneg E); lia).
    rewrite app_assoc.
    replace (Z.to_nat (len marker + len X + 4 + len E))
      with (List.length ((marker ++ [LF; LF] ++ X ++ [LF; LF]) ++ E)).
    2:{ rewrite !length_app. unfold len. simpl List.length. lia. }
    rewrite skipn_all. reflexivity.
Qed.

(** The restriction to one line is needed: with a line feed inside the
    marker, the end marker can be found across the blank line that follows
    the start marker. *)
Lemma roundtrip_needs_one_line :
  validMarker threeLineMarker = false
  /\ includes threeLineText (start (getMarkers threeLineMarker)) = false
  /\ includes threeLineText (end_ (getMarkers threeLineMarker)) = false
  /\ generatedContent
       (parseDescription (wrapWithMarkers threeLineText threeLineMarker)
                         threeLineMarker) = lit "q"
  /\ trim threeLineText = lit "q-end -->".
Proof. repeat split. Qed.




Lemma indexOfFrom_first (s t : jsstring) (k : Z) :
  0 <= k <= indexOf s t -> indexOfFrom s t k = indexOf s t.
Proof.
  intros H. unfold indexOfFrom.
  destruct (indexOf_range s t) as [R|R]; [lia|].
  replace (Z.min (Z.max k 0) (len s)) with k by lia.
  rewrite indexOf_skipn by lia. rewrite Z2Nat.id by lia.
  destruct (Z.eqb_spec (indexOf s t - k) (-1)); lia.
Qed.

Lemma indexOfFrom_none (s t : jsstring) (k : Z) :
  indexOf s t = -1 -> indexOfFrom s t k = -1.
Proof.
  intros H. unfold indexOfFrom. rewrite indexOf_skipn_none by exact H. reflexivity.
Qed.

Lemma parseDescription_degenerate (description marker : jsstring) :
  wellFormedPair description marker = false ->
  parseDescription description marker = degenerate description.
Proof.
  unfold wellFormedPair, parseDescription. intros H.
  apply negb_false_iff in H. rewrite H. reflexivity.
Qed.

Lemma parseDescription_split (description marker : jsstring) :
  wellFormedPair description marker = true ->
  parseDescription description marker
  = {| beforeMarker :=
         trim (firstn (Z.to_nat (indexOf description marker)) description);
       generatedContent :=
         trim (substring description (indexOf description marker + len marker)
                 (indexOf description (end_ (getMarkers marker))));
       afterMarker :=
         trim (skipn (Z.to_nat (indexOf description (end_ (getMarkers marker))
                                + len (end_ (getMarkers marker)))) description) |}.
Proof.
  unfold wellFormedPair, parseDescription. intros H.
  apply negb_true_iff in H. rewrite H.
  change (start (getMarkers marker)) with marker in *.
  apply orb_false_iff in H as [H He]. apply orb_false_iff in H as [Hs Hn].
  apply Z.eqb_neq in Hs, Hn. rewrite Z.geb_leb in He. apply Z.leb_gt in He.
  destruct (indexOf_range description marker) as [R|R]; [congruence|].
  destruct (indexOf_range description (end_ (getMarkers marker))) as [Q|Q];
    [congruence|].
  rewrite substring_prefix by lia.
  rewrite substringFrom_suffix
    by (pose proof (len_nonneg (end_ (getMarkers marker))); lia).
  reflexivity.
Qed.

(** C4, as the code has it.  [parseDescription] takes the first occurrence
    of the start marker and the first occurrence of the end marker in the
    whole document.  When either is missing, or that first end marker is at
    or before the start marker (also when another end marker follows), the
    split is the degenerate one, with the document unmodified.  Otherwise the
    document is split at these two positions, and then the end marker used
    is also the first one strictly after the start marker's position. *)
Theorem parseDescription_first_end (description marker : jsstring) :
  let m := getMarkers marker in
  let s := indexOf description (start m) in
  let e := indexOf description (end_ m) in
  ((s = -1 \/ e = -1 \/ e <= s) ->
     parseDescription description marker = degenerate description)
  /\ ((s <> -1 /\ e <> -1 /\ s < e) ->
        parseDescription description marker
        = {| beforeMarker := trim (firstn (Z.to_nat s) description);
             generatedContent := trim (substring description (s + len (start m)) e);
             afterMarker := trim (skipn (Z.to_nat (e + len (end_ m))) description) |}
        /\ indexOfFrom description (end_ m) (s + 1) = e)
  /\ ((s = -1 \/ e = -1 \/ s < e) ->
        parseDescription description marker
        = parseDescription_spec description marker).
Proof.
  cbv zeta. change (start (getMarkers marker)) with marker.
  set (s := indexOf description marker).
  set (E := end_ (getMarkers marker)).
  set (e := indexOf description E).
  assert (Hdeg : (s = -1 \/ e = -1 \/ e <= s) ->
                 wellFormedPair description marker = false).
  { intros H. unfold wellFormedPair. apply negb_false_iff.
    change (start (getMarkers marker)) with marker. fold s E e.
    rewrite !orb_true_iff, !Z.eqb_eq, Z.geb_leb, Z.leb_le. tauto. }
  assert (Hwf : s <> -1 /\ e <> -1 /\ s < e ->
                wellFormedPair description marker = true).
  { intros [Hs [He Hlt]]. unfold wellFormedPair. apply negb_true_iff.
    change (start (getMarkers marker)) with marker. fold s E e.
    rewrite !orb_false_iff, !Z.eqb_neq, Z.geb_leb, Z.leb_gt. tauto. }
  assert (Hfrom : s <> -1 -> s < e -> indexOfFrom description E (s + 1) = e).
  { intros Hs Hlt. apply indexOfFrom_first.
    destruct (indexOf_range description marker) as [R|R]; fold s in R; lia. }
  split; [|split].
  - intros H. apply parseDescription_degenerate. auto.
  - intros H. split.
    + apply parseDescription_split. auto.
    + apply Hfrom; tauto.
  - intros H. unfold parseDescription_spec.
    change (start (getMarkers marker)) with marker. fold s E.
    destruct (Z.eq_dec s (-1)) as [Hs|Hs].
    { rewrite Hs. simpl. apply parseDescription_degenerate. auto. }
    destruct (Z.eq_dec e (-1)) as [He|He].
    { rewrite (indexOfFrom_none description E (s + 1) He).
      rewrite orb_true_r. apply parseDescription_degenerate. auto. }
    assert (Hlt : s < e) by lia.
    rewrite (Hfrom Hs Hlt).
    unfold parseDescription.
    change (start (getMarkers marker)) with marker. fold s E e.
    replace (s >=? e) with false
      by (symmetry; rewrite Z.geb_leb; apply Z.leb_gt; exact Hlt).
    rewrite orb_false_r. reflexivity.
Qed.

Lemma parseDescription_first_end_witness :
  parseDescription endFirstDocument DEFAULT_MARKER = degenerate endFirstDocument
  /\ parseDescription (lit "no markers here") DEFAULT_MARKER
     = degenerate (lit "no markers here")
  /\ parseDescription (wrapWithMarkers (lit "x") DEFAULT_MARKER) DEFAULT_MARKER
     = parseDescription_spec (wrapWithMarkers (lit "x") DEFAULT_MARKER) DEFAULT_MARKER.
Proof.
  split; [|split].
  - apply (proj1 (parseDescription_first_end endFirstDocument DEFAULT_MARKER)).
    right. right. vm_compute. discriminate.
  - apply (proj1 (parseDescription_first_end (lit "no markers here") DEFAULT_MARKER)).
    left. reflexivity.
  - apply (proj2 (proj2 (parseDescription_first_end
                           (wrapWithMarkers (lit "x") DEFAULT_MARKER) DEFAULT_MARKER))).
    right. right. reflexivity.
Defined.

(** C4, as the claim states it, fails: in [endFirstDocument] an end marker
    stands at position 65, strictly after the start marker at position 34,
    and the claim splits there; the code returns the degenerate split. *)
Lemma parseDescription_later_end_counterexample :
  indexOf endFirstDocument (start (getMarkers DEFAULT_MARKER)) = 34
  /\ indexOfFrom endFirstDocument (end_ (getMarkers DEFAULT_MARKER)) 35 = 65
  /\ parseDescription_spec endFirstDocument DEFAULT_MARKER
     = {| beforeMarker := END_DEFAULT;
          generatedContent := lit "x";
          afterMarker := [] |}
  /\ parseDescription endFirstDocument DEFAULT_MARKER
     = degenerate endFirstDocument
  /\ parseDescription endFirstDocument DEFAULT_MARKER
     <> parseDescription_spec endFirstDocument DEFAULT_MARKER.
Proof.
  repeat split; try (vm_compute; reflexivity).
  vm_compute. discriminate.
Qed.

(* ------------------------------------------------------------------ *)
(** ** Smart mode                                                      *)
(* ------------------------------------------------------------------ *)

Lemma wrapped_includes_end (content marker : jsstring) :
  includes (wrapWithMarkers content marker) (end_ (getMarkers marker)) = true.
Proof.
  apply includes_iff. unfold wrapWithMarkers.
  exists (start (getMarkers marker) ++ [LF; LF] ++ content ++ [LF; LF]), [].
  rewrite app_nil_r, <- !app_assoc. reflexivity.
Qed.

Lemma wrapped_not_blank (content marker : jsstring) :
  (len (trim (wrapWithMarkers content marker)) >? 0) = true.
Proof.
  rewrite truthy_len.
  destruct (trim (wrapWithMarkers content marker)) eqn:E; [|reflexivity].
  exfalso. eapply includes_end_not_blank; [apply wrapped_includes_end | exact E].
Qed.

Lemma wellFormed_hasGeneratedContent (description marker : jsstring) :
  wellFormedPair description marker = true ->
  hasGeneratedContent description marker = true.
Proof.
  unfold wellFormedPair, hasGeneratedContent. intros H.
  apply negb_true_iff in H.
  apply orb_false_iff in H as [H _]. apply orb_false_iff in H as [Hs He].
  rewrite !indexOf_includes, Hs, He. reflexivity.
Qed.

(** The parts of smart mode that survive the filter, joined. *)
Lemma join_trimmed_parts (before wrapped after : jsstring) :
  (len (trim wrapped) >? 0) = true ->
  join [LF; LF]
    (filter (fun p => len (trim p) >? 0) [trim before; wrapped; trim after])
  = (if truthy (trim before) then trim before ++ [LF; LF] else [])
    ++ wrapped
    ++ (if truthy (trim after) then [LF; LF] ++ trim after else []).
Proof.
  intros Hw. cbn [filter]. rewrite Hw, !trim_idem, !truthy_len.
  destruct (truthy (trim before)), (truthy (trim after)); cbn [join];
    simpl app; rewrite <- ?app_assoc, ?app_nil_r; simpl app; reflexivity.
Qed.

Lemma smart_wellFormed (existing generated marker : jsstring) :
  wellFormedPair existing marker = true ->
  let p := parseDescription existing marker in
  applyUpdateMode existing generated smart marker
  = (if truthy (beforeMarker p) then beforeMarker p ++ [LF; LF] else [])
    ++ wrapWithMarkers generated marker
    ++ (if truthy (afterMarker p) then [LF; LF] ++ afterMarker p else []).
Proof.
  intros H. cbv zeta. unfold applyUpdateMode.
  rewrite (wellFormed_hasGeneratedContent _ _ H).
  rewrite (parseDescription_split _ _ H). cbn [beforeMarker afterMarker].
  apply join_trimmed_parts. apply wrapped_not_blank.
Qed.

Lemma smart_not_wellFormed (existing generated marker : jsstring) :
  wellFormedPair existing marker = false ->
  exists kept,
    (kept = existing \/ kept = trim existing)
    /\ applyUpdateMode existing generated smart marker
       = (if truthy kept then kept ++ [LF; LF] else [])
         ++ wrapWithMarkers generated marker.
Proof.
  intros H. unfold applyUpdateMode.
  destruct (hasGeneratedContent existing marker) eqn:G.
  - exists existing. split; [left; reflexivity|].
    rewrite (parseDescription_degenerate _ _ H). cbn [degenerate beforeMarker afterMarker].
    unfold hasGeneratedContent in G. apply andb_true_iff in G as [_ G].
    pose proof (includes_end_not_blank _ _ G) as Hne.
    cbn [filter]. rewrite (wrapped_not_blank generated marker).
    rewrite truthy_len.
    destruct (trim existing) as [|c r] eqn:E; [congruence|]. cbn [truthy].
    change (len (trim []) >? 0) with false. cbv iota.
    destruct existing as [|x existing]; [discriminate|]. cbn [truthy join].
    destruct (wrapWithMarkers generated marker) eqn:W.
    + pose proof (wrapped_not_blank generated marker) as B. rewrite W in B.
      discriminate.
    + rewrite <- app_assoc. reflexivity.
  - exists (trim existing). split; [right; reflexivity|].
    destruct (truthy (trim existing)); [|reflexivity].
    rewrite <- app_assoc. reflexivity.
Qed.

(** Two prefixes of one string: one of them is a prefix of the other. *)
Lemma app_eq_prefix (a b c d : jsstring) :
  a ++ b = c ++ d -> (exists t, a = c ++ t) \/ (exists t, c = a ++ t).
Proof.
  revert c. induction a as [|x a IH]; intros c H.
  - right. exists c. reflexivity.
  - destruct c as [|y c].
    + left. exists (x :: a). reflexivity.
    + simpl in H. injection H as -> H.
      destruct (IH c H) as [[t ->]|[t ->]]; [left | right]; exists t; reflexivity.
Qed.

(** With a well-formed pair, the description is the text before the first
    start marker, a block that begins with the start marker and ends with
    the first end marker, and the text after that end marker. *)
Lemma wellFormed_block (description marker : jsstring) :
  wellFormedPair description marker = true ->
  exists block,
    description
    = firstn (Z.to_nat (indexOf description marker)) description
      ++ block
      ++ skipn (Z.to_nat (indexOf description (end_ (getMarkers marker))
                          + len (end_ (getMarkers marker)))) description
    /\ startsWith block marker = true
    /\ endsWith block (end_ (getMarkers marker)) = true.
Proof.
  unfold wellFormedPair. change (start (getMarkers marker)) with marker.
  set (E := end_ (getMarkers marker)).
  set (s := indexOf description marker). set (e := indexOf description E).
  intros H. apply negb_true_iff in H.
  apply orb_false_iff in H as [H He]. apply orb_false_iff in H as [Hs Hn].
  apply Z.eqb_neq in Hs, Hn. rewrite Z.geb_leb in He. apply Z.leb_gt in He.
  destruct (indexOf_range description marker) as [R|R]; fold s in R; [congruence|].
  destruct (indexOf_range description E) as [Q|Q]; fold e in Q; [congruence|].
  pose proof (indexOf_occurrence description marker (proj1 R)) as Os. fold s in Os.
  pose proof (indexOf_occurrence description E (proj1 Q)) as Oe. fold e in Oe.
  apply startsWith_iff in Os as [r1 Hr1]. apply startsWith_iff in Oe as [r2 Hr2].
  set (X := firstn (Z.to_nat (e - s)) (skipn (Z.to_nat s) description)).
  assert (HX : skipn (Z.to_nat s) description = X ++ E ++ r2).
  { rewrite <- Hr2.
    replace (Z.to_nat e) with (Z.to_nat (e - s) + Z.to_nat s)%nat by lia.
    rewrite <- skipn_skipn. unfold X. symmetry. apply firstn_skipn. }
  assert (Hafter : skipn (Z.to_nat (e + len E)) description = r2).
  { replace (Z.to_nat (e + len E)) with (Z.to_nat (len E) + Z.to_nat e)%nat
      by (pose proof (len_nonneg E); lia).
    rewrite <- skipn_skipn, Hr2. unfold len.
    rewrite Nat2Z.id, skipn_app, skipn_all, Nat.sub_diag. reflexivity. }
  exists (X ++ E). rewrite Hafter. split; [|split].
  - rewrite <- (firstn_skipn (Z.to_nat s) description) at 1.
    rewrite HX, <- !app_assoc. reflexivity.
  - rewrite Hr1 in HX. symmetry in HX. rewrite app_assoc in HX.
    destruct (app_eq_prefix _ _ _ _ HX) as [[t Ht]|[t Ht]].
    + rewrite Ht. apply startsWith_app.
    + exfalso. pose proof (end_not_in_start marker) as N. fold E in N.
      assert (I : includes marker E = true).
      { apply includes_iff. exists X, t. rewrite Ht, <- app_assoc. reflexivity. }
      congruence.
  - apply endsWith_iff. exists X. reflexivity.
Qed.

(** C1.  Smart mode keeps the user's text.  When the description holds a
    well-formed marker pair, it is the text before the first start marker,
    a block from that start marker to the end of the first end marker, and
    the text after it; the before and after regions of [parseDescription]
    are these two texts trimmed, and the result is the first, the newly
    wrapped content and the second, in this order, separated by blank lines
    (an empty region leaves no trace): only the block is replaced.
    Otherwise the result is the existing description, as it is or trimmed,
    followed by a blank line and the wrapped content, or the wrapped content
    alone when there is nothing to keep. *)
Theorem smart_keeps_user_text (existing generated marker : jsstring) :
  let m := getMarkers marker in
  let p := parseDescription existing marker in
  let wrapped := wrapWithMarkers generated marker in
  let out := applyUpdateMode existing generated smart marker in
  let before := firstn (Z.to_nat (indexOf existing (start m))) existing in
  let after :=
    skipn (Z.to_nat (indexOf existing (end_ m) + len (end_ m))) existing in
  (wellFormedPair existing marker = true ->
     (exists block,
        existing = before ++ block ++ after
        /\ startsWith block (start m) = true
        /\ endsWith block (end_ m) = true)
     /\ beforeMarker p = trim before
     /\ afterMarker p = trim after
     /\ out = (if truthy (beforeMarker p) then beforeMarker p ++ [LF; LF] else [])
              ++ wrapped
              ++ (if truthy (afterMarker p) then [LF; LF] ++ afterMarker p else [])
     /\ out = (if truthy (trim before) then trim before ++ [LF; LF] else [])
              ++ wrapped
              ++ (if truthy (trim after) then [LF; LF] ++ trim after else []))
  /\ (wellFormedPair existing marker = false ->
        exists kept,
          (kept = existing \/ kept = trim existing)
          /\ out = (if truthy kept then kept ++ [LF; LF] else []) ++ wrapped).
Proof.
  cbv zeta. change (start (getMarkers marker)) with marker. split.
  - intros H. split; [exact (wellFormed_block existing marker H)|].
    pose proof (smart_wellFormed existing generated marker H) as S.
    cbv zeta in S. rewrite S.
    rewrite (parseDescription_split _ _ H). cbn [beforeMarker afterMarker].
    repeat split.
  - apply smart_not_wellFormed.
Qed.

Lemma smart_keeps_user_text_witness :
  applyUpdateMode userContentDocument (lit "New") smart DEFAULT_MARKER
  = lit "User content" ++ [LF; LF] ++ wrapWithMarkers (lit "New") DEFAULT_MARKER
      ++ [LF; LF] ++ lit "More user content"
  /\ exists kept,
       (kept = lit "User content" \/ kept = trim (lit "User content"))
       /\ applyUpdateMode (lit "User content") (lit "New") smart DEFAULT_MARKER
          = (if truthy kept then kept ++ [LF; LF] else [])
            ++ wrapWithMarkers (lit "New") DEFAULT_MARKER.
Proof.
  split.
  - destruct (proj1 (smart_keeps_user_text userContentDocument (lit "New")
                       DEFAULT_MARKER) eq_refl) as [_ [_ [_ [_ H]]]].
    rewrite H. reflexivity.
  - apply (proj2 (smart_keeps_user_text (lit "User content") (lit "New")
                    DEFAULT_MARKER)).
    reflexivity.
Defined.

(** C10.  When [parseDescription] finds a start marker before an end
    marker, its before and after regions are the text in front of the start
    marker and the text behind the end marker with the white space at both
    ends removed, not these substrings as they are; smart mode therefore
    puts exactly one blank line between the trimmed user text and the
    wrapped block, whatever white space stood there. *)
Theorem parseDescription_regions_trimmed (description generated marker : jsstring) :
  let m := getMarkers marker in
  let s := indexOf description (start m) in
  let e := indexOf description (end_ m) in
  let before := firstn (Z.to_nat s) description in
  let after := skipn (Z.to_nat (e + len (end_ m))) description in
  (wellFormedPair description marker = true ->
     beforeMarker (parseDescription description marker) = trim before
     /\ afterMarker (parseDescription description marker) = trim after
     /\ applyUpdateMode description generated smart marker
        = (if truthy (trim before) then trim before ++ [LF; LF] else [])
          ++ wrapWithMarkers generated marker
          ++ (if truthy (trim after) then [LF; LF] ++ trim after else []))
  /\ (wellFormedPair paddedDocument DEFAULT_MARKER = true
      /\ beforeMarker (parseDescription paddedDocument DEFAULT_MARKER)
         = lit "User notes"
      /\ firstn 17 paddedDocument = lit "  User notes  " ++ [LF; LF; LF]
      /\ applyUpdateMode paddedDocument (lit "New") smart DEFAULT_MARKER
         = lit "User notes" ++ [LF; LF]
           ++ wrapWithMarkers (lit "New") DEFAULT_MARKER
           ++ [LF; LF] ++ lit "tail").
Proof.
  cbv zeta. split.
  - intros H. rewrite (smart_wellFormed _ _ _ H).
    rewrite (parseDescription_split _ _ H). cbn [beforeMarker afterMarker].
    change (start (getMarkers marker)) with marker. auto.
  - repeat split; vm_compute; reflexivity.
Qed.

Lemma parseDescription_regions_trimmed_witness :
  beforeMarker (parseDescription paddedDocument DEFAULT_MARKER)
  = trim (firstn 17 paddedDocument)
  /\ afterMarker (parseDescription paddedDocument DEFAULT_MARKER)
     = trim (skipn 88 paddedDocument).
Proof.
  destruct (proj1 (parseDescription_regions_trimmed paddedDocument (lit "New")
                     DEFAULT_MARKER)) as [Hb [Ha _]]; [reflexivity|].
  split; [exact Hb | exact Ha].
Defined.

(* ------------------------------------------------------------------ *)
(** ** Collisions between the two markers                              *)
(* ------------------------------------------------------------------ *)

Lemma includes_of_prefix (s t : jsstring) :
  startsWith s t = true -> includes s t = true.
Proof.
  intros H. apply startsWith_iff in H as [r ->]. apply includes_iff.
  exists [], r. reflexivity.
Qed.

Lemma includes_of_suffix (s t : jsstring) :
  endsWith s t = true -> includes s t = true.
Proof.
  intros H. apply endsWith_iff in H as [q ->]. apply includes_iff.
  exists q, []. rewrite app_nil_r. reflexivity.
Qed.

Lemma not_includes_no_affix (s t : jsstring) :
  includes s t = false -> startsWith s t = false /\ endsWith s t = false.
Proof.
  intros H. split.
  - destruct (startsWith s t) eqn:E; [|reflexivity].
    apply includes_of_prefix in E. congruence.
  - destruct (endsWith s t) eqn:E; [|reflexivity].
    apply includes_of_suffix in E. congruence.
Qed.

(** A marker in the expected format is its [baseMarker], white space and the
    closing delimiter; the [baseMarker] begins with ["<"]. *)
Lemma legalMarker_shape (marker : jsstring) :
  legalMarker marker = true ->
  exists t w, marker = (60%N :: t) ++ w ++ lit "-->"
              /\ allWhite w = true
              /\ trim (replaceClosing marker) = 60%N :: t.
Proof.
  unfold legalMarker. intros H. apply andb_true_iff in H as [Hs He].
  apply startsWith_iff in Hs as [r1 Hs]. apply endsWith_iff in He as [Q He].
  destruct (trimEnd_split Q) as [w [HQ Hw]].
  assert (HM : marker = trimEnd Q ++ w ++ lit "-->").
  { rewrite He. rewrite HQ at 1. rewrite <- app_assoc. reflexivity. }
  destruct (trimEnd_shape Q) as [E|[q [x [E Hx]]]].
  - exfalso. rewrite E in HM. simpl app in HM. rewrite HM in Hs.
    destruct w as [|y w]; simpl in Hs; [discriminate|].
    injection Hs as Hy _. subst y. discriminate.
  - assert (Hhead : exists t, q ++ [x] = 60%N :: t).
    { rewrite E in HM. rewrite HM in Hs. destruct q as [|y q]; simpl in Hs.
      - injection Hs as Hy _. subst x. exists []. reflexivity.
      - injection Hs as Hy _. subst y. exists (q ++ [x]). reflexivity. }
    destruct Hhead as [t Ht]. exists t, w.
    rewrite <- Ht, <- E. split; [exact HM|]. split; [exact Hw|].
    assert (HR : replaceClosing marker = trimEnd Q).
    { rewrite HM, E, <- app_assoc. simpl app.
      apply replaceClosing_closed; assumption. }
    assert (HS : trimStart (trimEnd Q) = trimEnd Q).
    { rewrite E, Ht. apply trimStart_fixed. reflexivity. }
    rewrite HR. unfold trim. rewrite HS. apply trimEnd_idem.
Qed.

Lemma end_count_lt (marker : jsstring) :
  count 60%N (end_ (getMarkers marker)) = count 60%N marker.
Proof.
  unfold getMarkers. cbn [end_]. rewrite !count_app.
  replace (count 60%N END_MARKER_SUFFIX) with 0%nat by reflexivity.
  replace (count 60%N (lit " -->")) with 0%nat by reflexivity.
  rewrite base_count by (reflexivity || discriminate). lia.
Qed.

Lemma start_not_prefix_of_end (marker : jsstring) :
  legalMarker marker = true ->
  startsWith (end_ (getMarkers marker)) marker = false.
Proof.
  intros H. destruct (legalMarker_shape marker H) as [t [w [HM [Hw Hb]]]].
  destruct (startsWith (end_ (getMarkers marker)) marker) eqn:E; [|reflexivity].
  exfalso. apply startsWith_iff in E as [r Hr].
  unfold getMarkers in Hr. cbn [end_] in Hr. rewrite Hb in Hr.
  rewrite HM in Hr. rewrite <- !app_assoc in Hr.
  apply app_inv_head in Hr.
  destruct w as [|y w]; simpl in Hr.
  - discriminate.
  - injection Hr as Hy _. subst y. discriminate.
Qed.

Lemma start_not_in_end (marker : jsstring) :
  legalMarker marker = true ->
  includes (end_ (getMarkers marker)) marker = false.
Proof.
  intros H.
  destruct (includes (end_ (getMarkers marker)) marker) eqn:E; [|reflexivity].
  exfalso. apply includes_iff in E as [u [v Huv]].
  pose proof (end_count_lt marker) as Hc. rewrite Huv, !count_app in Hc.
  destruct u as [|y u].
  - pose proof (start_not_prefix_of_end marker H) as P.
    rewrite Huv in P. simpl app in P. rewrite startsWith_app in P. discriminate.
  - destruct (legalMarker_shape marker H) as [t [w [_ [_ Hb]]]].
    unfold getMarkers in Huv. cbn [end_] in Huv. rewrite Hb in Huv.
    simpl in Huv. injection Huv as Hy _. subst y.
    rewrite count_cons_same in Hc. lia.
Qed.

(** C9, as the code has it.  [getMarkers] accepts every base marker and
    returns it unchanged as the start marker.  The end marker never equals
    the start marker and never occurs inside it; for a base marker in the
    expected delimiter format (it begins with the opening and ends with the
    closing delimiter of a comment) the start marker does not occur inside
    the end marker either, so that neither marker is a prefix or a suffix of
    the other. *)
Theorem getMarkers_collisions (marker : jsstring) :
  let m := getMarkers marker in
  start m = marker
  /\ end_ m <> start m
  /\ includes (start m) (end_ m) = false
  /\ startsWith (start m) (end_ m) = false
  /\ endsWith (start m) (end_ m) = false
  /\ (legalMarker marker = true ->
        includes (end_ m) (start m) = false
        /\ startsWith (end_ m) (start m) = false
        /\ endsWith (end_ m) (start m) = false).
Proof.
  cbv zeta. change (start (getMarkers marker)) with marker.
  pose proof (end_not_in_start marker) as N.
  destruct (not_includes_no_affix _ _ N) as [N1 N2].
  repeat split; try assumption.
  - intros E. rewrite E in N.
    rewrite (includes_of_prefix marker marker) in N; [discriminate|].
    rewrite <- (app_nil_r marker) at 1. apply startsWith_app.
  - apply start_not_in_end. assumption.
  - apply not_includes_no_affix, start_not_in_end. assumption.
  - apply not_includes_no_affix, start_not_in_end. assumption.
Qed.

Lemma getMarkers_collisions_witness :
  includes (end_ (getMarkers DEFAULT_MARKER)) (start (getMarkers DEFAULT_MARKER))
  = false
  /\ startsWith (end_ (getMarkers DEFAULT_MARKER)) (start (getMarkers DEFAULT_MARKER))
     = false
  /\ endsWith (end_ (getMarkers DEFAULT_MARKER)) (start (getMarkers DEFAULT_MARKER))
     = false.
Proof.
  apply (getMarkers_collisions DEFAULT_MARKER). reflexivity.
Defined.

(** C9, as the claim states it, fails: the base marker ["foo"] is not in the
    delimiter format, yet [getMarkers] neither rejects nor changes it, and
    the start marker it returns is a prefix of the end marker. *)
Lemma getMarkers_unchecked_counterexample :
  legalMarker (lit "foo") = false
  /\ getMarkers (lit "foo")
     = {| start := lit "foo"; end_ := lit "foo-end -->" |}
  /\ startsWith (end_ (getMarkers (lit "foo"))) (start (getMarkers (lit "foo")))
     = true.
Proof. repeat split. Qed.

(* ------------------------------------------------------------------ *)
(** ** The diff reducer                                                *)
(* ------------------------------------------------------------------ *)

Section SortFacts.
Context {A : Type} (cmp : A -> A -> Z).

Lemma insertBy_perm (x : A) (l : list A) :
  Permutation (insertBy cmp x l) (x :: l).
Proof.
  induction l as [|y l IH]; simpl; [apply Permutation_refl|].
  destruct (cmp x y <=? 0); [apply Permutation_refl|].
  eapply perm_trans; [apply perm_skip, IH | apply perm_swap].
Qed.

Lemma sortBy_perm (l : list A) : Permutation (sortBy cmp l) l.
Proof.
  induction l as [|x l IH]; simpl; [apply perm_nil|].
  eapply perm_trans; [apply insertBy_perm | apply perm_skip, IH].
Qed.

(** A consistent comparator: comparing in the other order gives the
    opposite answer. *)
Hypothesis cmp_total : forall a b, 0 < cmp a b -> cmp b a <= 0.

Lemma insertBy_hd (a x : A) (l : list A) :
  HdRel (fun a b => cmp a b <= 0) a l -> cmp a x <= 0 ->
  HdRel (fun a b => cmp a b <= 0) a (insertBy cmp x l).
Proof.
  intros Hl Hx. destruct l as [|y l]; simpl.
  - constructor. exact Hx.
  - destruct (cmp x y <=? 0); constructor; [exact Hx|].
    inversion Hl; assumption.
Qed.

Lemma insertBy_sorted (x : A) (l : list A) :
  Sorted (fun a b => cmp a b <= 0) l ->
  Sorted (fun a b => cmp a b <= 0) (insertBy cmp x l).
Proof.
  induction 1 as [|y l Hs IH Hd]; simpl.
  - repeat constructor.
  - destruct (Z.leb_spec (cmp x y) 0) as [L|L].
    + constructor; [constructor; assumption | constructor; exact L].
    + constructor; [exact IH|]. apply insertBy_hd; [exact Hd|].
      apply cmp_total. exact L.
Qed.

Lemma sortBy_sorted (l : list A) : Sorted (fun a b => cmp a b <= 0) (sortBy cmp l).
Proof.
  induction l as [|x l IH]; simpl; [constructor|].
  apply insertBy_sorted. exact IH.
Qed.
End SortFacts.

Section ReducerFacts.
Variable localeCompare : jsstring -> jsstring -> Z.

Lemma withPatch_filename (f : FileChange) (p : option jsstring) :
  filename (withPatch f p) = filename f.
Proof. reflexivity. Qed.

Lemma truncateStep_filenames (maxDiffSize : Z) (st : loopState) (f : FileChange) :
  map filename (snd (truncateStep maxDiffSize st f))
  = map filename (snd st) ++ [filename f].
Proof.
  destruct st as [currentSize result]. unfold truncateStep.
  destruct (currentSize + patchLength f <=? maxDiffSize);
    [|destruct (currentSize <? maxDiffSize)];
    cbn [snd]; rewrite map_app; reflexivity.
Qed.

Lemma loop_filenames (maxDiffSize : Z) (l : list FileChange) (st : loopState) :
  map filename (snd (fold_left (truncateStep maxDiffSize) l st))
  = map filename (snd st) ++ map filename l.
Proof.
  revert st. induction l as [|f l IH]; intros st; simpl.
  - rewrite app_nil_r. reflexivity.
  - rewrite IH, truncateStep_filenames, <- app_assoc. reflexivity.
Qed.

Lemma truncatePatches_unfold (files : list FileChange) (maxDiffSize : Z) :
  truncatePatches localeCompare files maxDiffSize
  = sortBy (byFilename localeCompare)
      (snd (fold_left (truncateStep maxDiffSize) (sortBy bySizeDesc files) (0, []))).
Proof.
  unfold truncatePatches.
  destruct (fold_left (truncateStep maxDiffSize) (sortBy bySizeDesc files) (0, [])).
  reflexivity.
Qed.

Lemma truncatePatches_filenames (files : list FileChange) (maxDiffSize : Z) :
  Permutation (map filename (truncatePatches localeCompare files maxDiffSize))
              (map filename files).
Proof.
  rewrite truncatePatches_unfold.
  eapply perm_trans; [apply Permutation_map, sortBy_perm|].
  rewrite loop_filenames. simpl. apply Permutation_map, sortBy_perm.
Qed.

Lemma Sorted_map_filename (l : list FileChange) :
  Sorted (fun a b => byFilename localeCompare a b <= 0) l ->
  Sorted (fun a b => localeCompare a b <= 0) (map filename l).
Proof.
  induction 1 as [|f l Hs IH Hd]; simpl; constructor; [exact IH|].
  destruct Hd; simpl; constructor. assumption.
Qed.
End ReducerFacts.

(** The gate of [fetchPRDiff]: within the budget the files are returned as
    they came; in both cases the file names are those of the input. *)
Lemma reduceFiles_filenames (localeCompare : jsstring -> jsstring -> Z)
    (files : list FileChange) (maxDiffSize : Z) :
  (totalDiffSize files <= maxDiffSize ->
     reduceFiles localeCompare files maxDiffSize = files)
  /\ Permutation (map filename (reduceFiles localeCompare files maxDiffSize))
                 (map filename files).
Proof.
  unfold reduceFiles. split.
  - intros H. destruct (Z.gtb_spec (totalDiffSize files) maxDiffSize); [lia|].
    reflexivity.
  - destruct (totalDiffSize files >? maxDiffSize).
    + apply truncatePatches_filenames.
    + apply Permutation_refl.
Qed.

Lemma codeUnitCompare_total (a b : jsstring) :
  0 < codeUnitCompare a b -> codeUnitCompare b a <= 0.
Proof.
  revert b. induction a as [|x a IH]; destruct b as [|y b]; simpl; try lia.
  destruct (N.ltb_spec x y), (N.ltb_spec y x); try lia. apply IH.
Qed.

Lemma codeUnitCompare_trans (a b c : jsstring) :
  codeUnitCompare a b <= 0 -> codeUnitCompare b c <= 0 ->
  codeUnitCompare a c <= 0.
Proof.
  revert b c. induction a as [|x a IH]; destruct b as [|y b];
    destruct c as [|z c]; simpl; try lia.
  destruct (N.ltb_spec x y), (N.ltb_spec y x), (N.ltb_spec y z),
    (N.ltb_spec z y), (N.ltb_spec x z), (N.ltb_spec z x); try lia.
  apply IH.
Qed.

(** [truncatePatches] returns the files it was given, each once, and lists
    them in the order of [localeCompare] on their file names, whatever the
    order of its input was. *)
Lemma truncatePatches_same_files_in_order
    (localeCompare : jsstring -> jsstring -> Z)
    (consistent : forall a b, 0 < localeCompare a b -> localeCompare b a <= 0)
    (transitive : forall a b c, localeCompare a b <= 0 -> localeCompare b c <= 0 ->
                                localeCompare a c <= 0)
    (files : list FileChange) (maxDiffSize : Z) :
  let out := truncatePatches localeCompare files maxDiffSize in
  Permutation (map filename out) (map filename files)
  /\ (forall name, In name (map filename out) <-> In name (map filename files))
  /\ List.length out = List.length files
  /\ StronglySorted (fun a b => localeCompare a b <= 0) (map filename out).
Proof.
  cbv zeta.
  pose proof (truncatePatches_filenames localeCompare files maxDiffSize) as P.
  split; [exact P|]. split; [|split].
  - intros name. split; apply Permutation_in; [exact P | apply Permutation_sym, P].
  - apply Permutation_length in P. rewrite !length_map in P. exact P.
  - apply Sorted_StronglySorted.
    + intros a b c. apply transitive.
    + apply Sorted_map_filename. rewrite truncatePatches_unfold.
      apply sortBy_sorted. intros a b. apply consistent.
Qed.

Lemma truncatePatches_same_files_in_order_witness :
  Permutation (map filename (truncatePatches codeUnitCompare sampleFiles 5))
              (map filename sampleFiles)
  /\ StronglySorted (fun a b => codeUnitCompare a b <= 0)
       (map filename (truncatePatches codeUnitCompare sampleFiles 5)).
Proof.
  destruct (truncatePatches_same_files_in_order codeUnitCompare
              codeUnitCompare_total codeUnitCompare_trans sampleFiles 5)
    as [P [_ [_ S]]].
  split; [exact P | exact S].
Defined.

(** C8, as the code has it.  The reducer, which is the gate of
    [fetchPRDiff] and [truncatePatches], returns the files it was given,
    each once, for every budget, a budget that is not a number included.
    When the budget is a number that the patches exceed, the files are
    listed in the order of [localeCompare] on their names, the collation of
    the host, whatever the order of the input was.  When the budget is not a
    number or the patches fit it, the list is returned as it came. *)
Theorem reduceFiles_same_files_in_order
    (localeCompare : jsstring -> jsstring -> Z)
    (consistent : forall a b, 0 < localeCompare a b -> localeCompare b a <= 0)
    (transitive : forall a b c, localeCompare a b <= 0 -> localeCompare b c <= 0 ->
                                localeCompare a c <= 0)
    (files : list FileChange) (maxDiffSize : option Z) :
  let out := reduceFilesNumber localeCompare files maxDiffSize in
  Permutation (map filename out) (map filename files)
  /\ (forall name, In name (map filename out) <-> In name (map filename files))
  /\ List.length out = List.length files
  /\ (forall budget,
        maxDiffSize = Some budget -> budget < totalDiffSize files ->
        StronglySorted (fun a b => localeCompare a b <= 0) (map filename out))
  /\ ((maxDiffSize = None
       \/ exists budget, maxDiffSize = Some budget /\ totalDiffSize files <= budget) ->
      out = files).
Proof.
  cbv zeta.
  assert (P : Permutation
                (map filename (reduceFilesNumber localeCompare files maxDiffSize))
                (map filename files)).
  { destruct maxDiffSize as [budget|]; [|apply Permutation_refl].
    apply reduceFiles_filenames. }
  split; [exact P|]. split; [|split; [|split]].
  - intros name. split; apply Permutation_in; [exact P | apply Permutation_sym, P].
  - apply Permutation_length in P. rewrite !length_map in P. exact P.
  - intros budget -> Hb. cbn [reduceFilesNumber]. unfold reduceFiles.
    destruct (Z.gtb_spec (totalDiffSize files) budget) as [G|G]; [|lia].
    apply Sorted_StronglySorted.
    + intros a b c. apply transitive.
    + apply Sorted_map_filename. rewrite truncatePatches_unfold.
      apply sortBy_sorted. intros a b. apply consistent.
  - intros [->|[budget [-> Hb]]]; [reflexivity|].
    apply (reduceFiles_filenames localeCompare files budget). exact Hb.
Qed.

Lemma reduceFiles_same_files_in_order_witness :
  StronglySorted (fun a b => codeUnitCompare a b <= 0)
    (map filename (reduceFilesNumber codeUnitCompare sampleFiles (Some 5)))
  /\ reduceFilesNumber codeUnitCompare sampleFiles (Some 16) = sampleFiles.
Proof.
  destruct (reduceFiles_same_files_in_order codeUnitCompare
              codeUnitCompare_total codeUnitCompare_trans sampleFiles (Some 5))
    as [_ [_ [_ [S _]]]].
  destruct (reduceFiles_same_files_in_order codeUnitCompare
              codeUnitCompare_total codeUnitCompare_trans sampleFiles (Some 16))
    as [_ [_ [_ [_ K]]]].
  split.
  - apply (S 5); [reflexivity | vm_compute; reflexivity].
  - apply K. right. exists 16. split; [reflexivity | vm_compute; discriminate].
Defined.

(** C8, as the claim states it, fails: the three patches of [sampleFiles]
    total 16 code units; with a budget of 16 the gate of [fetchPRDiff] does
    not call [truncatePatches], whatever the collation, and the files come
    back in the order of the input, which is not sorted by name. *)
Lemma reduceFiles_unsorted_counterexample :
  totalDiffSize sampleFiles = 16
  /\ (forall localeCompare, reduceFiles localeCompare sampleFiles 16 = sampleFiles)
  /\ map filename (reduceFiles codeUnitCompare sampleFiles 16)
     = [lit "src/b.ts"; lit "src/a.ts"; lit "README.md"]
  /\ codeUnitCompare (lit "src/b.ts") (lit "src/a.ts") = 1
  /\ ~ StronglySorted (fun a b => codeUnitCompare a b <= 0)
         (map filename (reduceFiles codeUnitCompare sampleFiles 16)).
Proof.
  repeat split.
  intros S. change (map filename (reduceFiles codeUnitCompare sampleFiles 16))
    with [lit "src/b.ts"; lit "src/a.ts"; lit "README.md"] in S.
  apply StronglySorted_inv in S as [_ F]. apply Forall_inv in F.
  vm_compute in F. apply F. reflexivity.
Qed.

(** The order of the result is the collation's and nothing else: with a
    collation that ignores case, a consistent and transitive one,
    [truncatePatches] lists ["a.ts"] before ["B.ts"], which the order of the
    code units does not. *)
Lemma collation_decides_order :
  (forall a b, 0 < caseFoldCompare a b -> caseFoldCompare b a <= 0)
  /\ (forall a b c, caseFoldCompare a b <= 0 -> caseFoldCompare b c <= 0 ->
                    caseFoldCompare a c <= 0)
  /\ map filename (truncatePatches caseFoldCompare mixedCaseFiles 5)
     = [lit "a.ts"; lit "B.ts"]
  /\ codeUnitCompare (lit "a.ts") (lit "B.ts") = 1.
Proof.
  split; [|split; [|split; reflexivity]].
  - intros a b. apply codeUnitCompare_total.
  - intros a b c. apply codeUnitCompare_trans.
Qed.

(** What the reducer does guarantee: with a budget that is not negative,
    the patches it returns exceed the budget by no more than the length of
    the truncation text. *)
Lemma totalDiffSize_acc (files : list FileChange) (a : Z) :
  fold_left (fun sum f => sum + patchLength f) files a = a + totalDiffSize files.
Proof.
  unfold totalDiffSize. revert a. induction files as [|f files IH]; intros a; simpl.
  - lia.
  - rewrite IH, (IH (patchLength f)). lia.
Qed.

Lemma totalDiffSize_cons (f : FileChange) (files : list FileChange) :
  totalDiffSize (f :: files) = patchLength f + totalDiffSize files.
Proof. unfold totalDiffSize at 1. simpl. apply totalDiffSize_acc. Qed.

Lemma totalDiffSize_app (l1 l2 : list FileChange) :
  totalDiffSize (l1 ++ l2) = totalDiffSize l1 + totalDiffSize l2.
Proof.
  induction l1 as [|f l1 IH]; simpl app.
  - reflexivity.
  - rewrite !totalDiffSize_cons, IH. lia.
Qed.

Lemma totalDiffSize_perm (l1 l2 : list FileChange) :
  Permutation l1 l2 -> totalDiffSize l1 = totalDiffSize l2.
Proof.
  induction 1; rewrite ?totalDiffSize_cons; lia.
Qed.

Lemma patchLength_nonneg (f : FileChange) : 0 <= patchLength f.
Proof. unfold patchLength. destruct (patch f); [apply len_nonneg | lia]. Qed.

Lemma substring_prefix_len (p : jsstring) (k : Z) :
  0 <= k -> len (substring p 0 k) <= k.
Proof.
  intros H. unfold substring, clampIndex. pose proof (len_nonneg p).
  replace (Z.min (Z.min (Z.max 0 0) (len p)) (Z.min (Z.max k 0) (len p)))
    with 0 by lia.
  unfold len at 1. rewrite length_firstn. lia.
Qed.

Lemma truncateStep_budget (maxDiffSize : Z) (st : loopState) (f : FileChange) :
  fst st <= maxDiffSize ->
  (totalDiffSize (snd st) <= fst st
   \/ fst st = maxDiffSize /\ totalDiffSize (snd st) <= maxDiffSize + len TRUNCATED) ->
  fst (truncateStep maxDiffSize st f) <= maxDiffSize
  /\ (totalDiffSize (snd (truncateStep maxDiffSize st f))
        <= fst (truncateStep maxDiffSize st f)
      \/ fst (truncateStep maxDiffSize st f) = maxDiffSize
         /\ totalDiffSize (snd (truncateStep maxDiffSize st f))
            <= maxDiffSize + len TRUNCATED).
Proof.
  destruct st as [currentSize result]. cbn [fst snd]. intros Hle Hinv.
  pose proof (patchLength_nonneg f) as Hp.
  unfold truncateStep. cbv zeta.
  destruct (Z.leb_spec (currentSize + patchLength f) maxDiffSize) as [L|L];
    [|destruct (Z.ltb_spec currentSize maxDiffSize) as [M|M]];
    cbn [fst snd]; rewrite totalDiffSize_app, totalDiffSize_cons;
    change (totalDiffSize []) with 0.
  - split; [exact L|]. lia.
  - split; [lia|]. right. split; [reflexivity|].
    match goal with
    | |- _ + (patchLength ?g + 0) <= _ =>
        assert (Hk : patchLength g <= maxDiffSize - currentSize + len TRUNCATED)
    end.
    { unfold patchLength. cbn [patch withPatch].
      pose proof (len_nonneg TRUNCATED).
      destruct (patch f) as [p|]; cbv beta iota delta [option_map]; [|lia].
      pose proof (substring_prefix_len p (maxDiffSize - currentSize)) as B.
      destruct (substring p 0 (maxDiffSize - currentSize)) as [|c t]; [lia|].
      rewrite len_app. lia. }
    lia.
  - split; [exact Hle|]. change (patchLength (withPatch f None)) with 0. lia.
Qed.

Lemma loop_budget (maxDiffSize : Z) (files : list FileChange) (st : loopState) :
  fst st <= maxDiffSize ->
  (totalDiffSize (snd st) <= fst st
   \/ fst st = maxDiffSize /\ totalDiffSize (snd st) <= maxDiffSize + len TRUNCATED) ->
  totalDiffSize (snd (fold_left (truncateStep maxDiffSize) files st))
  <= maxDiffSize + len TRUNCATED.
Proof.
  revert st. induction files as [|f files IH]; intros st Hle Hinv; simpl.
  - pose proof (len_nonneg TRUNCATED). lia.
  - destruct (truncateStep_budget maxDiffSize st f Hle Hinv) as [H1 H2].
    apply IH; assumption.
Qed.

Lemma truncatePatches_budget_slack
    (localeCompare : jsstring -> jsstring -> Z)
    (files : list FileChange) (maxDiffSize : Z) :
  0 <= maxDiffSize ->
  totalDiffSize (truncatePatches localeCompare files maxDiffSize)
  <= maxDiffSize + 16.
Proof.
  intros H. rewrite truncatePatches_unfold.
  rewrite (totalDiffSize_perm _ _ (sortBy_perm _ _)).
  change 16 with (len TRUNCATED). apply loop_budget; cbn [fst snd].
  - exact H.
  - left. change (totalDiffSize []) with 0. lia.
Qed.

(** C3 fails on the code.  One file with a patch of 6 code units and a budget
    of 3: the reducer keeps 3 code units and appends the 16 code units of
    the truncation text, so the patch it returns has length 19. *)
Theorem truncatePatches_exceeds_budget
    (localeCompare : jsstring -> jsstring -> Z) :
  totalDiffSize oneLargeFile = 6
  /\ reduceFiles localeCompare oneLargeFile 3
     = truncatePatches localeCompare oneLargeFile 3
  /\ map patch (truncatePatches localeCompare oneLargeFile 3)
     = [Some (lit "abc" ++ [LF] ++ lit "... (truncated)")]
  /\ totalDiffSize (truncatePatches localeCompare oneLargeFile 3) = 19.
Proof. repeat split. Qed.

(* ------------------------------------------------------------------ *)
(** ** The generator's retry loop                                      *)
(* ------------------------------------------------------------------ *)

Lemma retry_first (api : Z -> ApiOutcome) :
  transientAt api 1 ->
  generateDescription api
  = retryLoop 3 api 2 (match tryBody (api 1) with inr m => Some m | inl _ => None end)
      [Sleep 2000; Call 1].
Proof.
  intros [m [Hm Hr]]. unfold generateDescription. cbn [retryLoop].
  change (1 <=? maxRetries) with true. cbv iota. rewrite Hm, Hr. reflexivity.
Qed.

Lemma retry_second (api : Z -> ApiOutcome) (last : option jsstring) :
  transientAt api 2 ->
  retryLoop 3 api 2 last [Sleep 2000; Call 1]
  = retryLoop 2 api 3 (match tryBody (api 2) with inr m => Some m | inl _ => None end)
      [Sleep 4000; Call 2; Sleep 2000; Call 1].
Proof.
  intros [m [Hm Hr]]. cbn [retryLoop].
  change (2 <=? maxRetries) with true. cbv iota. rewrite Hm, Hr. reflexivity.
Qed.

(** The loop has ended after [n] calls, not for want of fuel. *)
Ltac ended_after n :=
  split; [discriminate | exists n; split; [lia | reflexivity]].

Lemma retry_bounded (api : Z -> ApiOutcome) :
  fst (generateDescription api) <> OutOfFuel
  /\ exists n, (n <= 3)%nat
               /\ calls (snd (generateDescription api)) = firstn n [1; 2; 3].
Proof.
  unfold generateDescription. cbn [retryLoop].
  change (1 <=? maxRetries) with true. cbv iota.
  destruct (tryBody (api 1)) as [t1|m1]; [ended_after 1%nat|].
  destruct (isRetryableError m1); [|ended_after 1%nat].
  change (1 <? maxRetries) with true. change (1 + 1) with 2.
  change (2 <=? maxRetries) with true. cbv iota.
  destruct (tryBody (api 2)) as [t2|m2]; [ended_after 2%nat|].
  destruct (isRetryableError m2); [|ended_after 2%nat].
  change (2 <? maxRetries) with true. change (2 + 1) with 3.
  change (3 <=? maxRetries) with true. cbv iota.
  destruct (tryBody (api 3)) as [t3|m3]; [ended_after 3%nat|].
  destruct (isRetryableError m3); [|ended_after 3%nat].
  change (3 <? maxRetries) with false. change (3 + 1) with 4.
  change (4 <=? maxRetries) with false. cbv iota.
  ended_after 3%nat.
Qed.

Lemma retry_exhausted (api : Z -> ApiOutcome) (m3 : jsstring) :
  transientAt api 1 -> transientAt api 2 ->
  tryBody (api 3) = inr m3 -> isRetryableError m3 = true ->
  generateDescription api
  = (Thrown m3, [Call 1; Sleep 2000; Call 2; Sleep 4000; Call 3]).
Proof.
  intros H1 H2 Hm Hr.
  rewrite (retry_first api H1), (retry_second api _ H2). cbn [retryLoop].
  change (3 <=? maxRetries) with true. cbv iota. rewrite Hm, Hr.
  reflexivity.
Qed.

Lemma retry_permanent (api : Z -> ApiOutcome) (n : Z) (m : jsstring) :
  1 <= n <= 3 ->
  (forall k, 1 <= k < n -> transientAt api k) ->
  tryBody (api n) = inr m -> isRetryableError m = false ->
  fst (generateDescription api) = Thrown m
  /\ calls (snd (generateDescription api)) = firstn (Z.to_nat n) [1; 2; 3]
  /\ sleeps (snd (generateDescription api))
     = firstn (Z.to_nat (n - 1)) [2000; 4000].
Proof.
  intros Hn Hk Hm Hr.
  assert (C : n = 1 \/ n = 2 \/ n = 3) by lia.
  destruct C as [-> | [-> | ->]].
  - unfold generateDescription. cbn [retryLoop].
    change (1 <=? maxRetries) with true. cbv iota. rewrite Hm, Hr.
    repeat split.
  - rewrite (retry_first api) by (apply Hk; lia). cbn [retryLoop].
    change (2 <=? maxRetries) with true. cbv iota. rewrite Hm, Hr.
    repeat split.
  - rewrite (retry_first api), (retry_second api) by (apply Hk; lia).
    cbn [retryLoop].
    change (3 <=? maxRetries) with true. cbv iota. rewrite Hm, Hr.
    repeat split.
Qed.

Lemma empty_response_permanent (text : jsstring) :
  trim text = [] ->
  tryBody (Responds text) = inr (lit "Empty response received from Gemini API")
  /\ isRetryableError (lit "Empty response received from Gemini API") = false.
Proof.
  intros H. split; [|reflexivity].
  unfold tryBody. rewrite H. rewrite orb_true_r. reflexivity.
Qed.

Lemma isRetryableError_signatures (message : jsstring) :
  isRetryableError message
  = existsb (includes (toLowerCase message)) transientSignatures.
Proof.
  unfold isRetryableError, transientSignatures. cbn [existsb].
  repeat match goal with
         | |- context [includes ?a ?b] => destruct (includes a b)
         end; reflexivity.
Qed.

(** C7.  The loop calls the generator at most three times, in attempts 1, 2
    and 3, and always completes.  When every attempt fails with an error of
    transient signature, it waits 2000 ms and then 4000 ms between the
    attempts and throws the error of the third attempt.  When attempt [n]
    fails with an error that has no transient signature, the earlier ones
    having been transient, this error is thrown at once: attempt [n] is the
    last call.  A response whose text is blank is such an error.  The
    transient signature is the presence of one of [transientSignatures] in
    the lowered message. *)
Theorem generateDescription_retry_policy (api : Z -> ApiOutcome) :
  (fst (generateDescription api) <> OutOfFuel
   /\ exists n, (n <= 3)%nat
                /\ calls (snd (generateDescription api)) = firstn n [1; 2; 3])
  /\ (forall m3,
        transientAt api 1 -> transientAt api 2 ->
        tryBody (api 3) = inr m3 -> isRetryableError m3 = true ->
        generateDescription api
        = (Thrown m3, [Call 1; Sleep (2 ^ 1 * 1000); Call 2;
                       Sleep (2 ^ 2 * 1000); Call 3]))
  /\ (forall n m,
        1 <= n <= 3 ->
        (forall k, 1 <= k < n -> transientAt api k) ->
        tryBody (api n) = inr m -> isRetryableError m = false ->
        fst (generateDescription api) = Thrown m
        /\ calls (snd (generateDescription api)) = firstn (Z.to_nat n) [1; 2; 3]
        /\ sleeps (snd (generateDescription api))
           = firstn (Z.to_nat (n - 1)) [2000; 4000])
  /\ (forall text,
        trim text = [] ->
        tryBody (Responds text)
        = inr (lit "Empty response received from Gemini API")
        /\ isRetryableError (lit "Empty response received from Gemini API")
           = false)
  /\ (forall message,
        isRetryableError message
        = existsb (includes (toLowerCase message)) transientSignatures).
Proof.
  split; [apply retry_bounded|]. split; [|split; [|split]].
  - intros m3. apply retry_exhausted.
  - intros n m. apply retry_permanent.
  - apply empty_response_permanent.
  - apply isRetryableError_signatures.
Qed.

Lemma generateDescription_retry_policy_witness :
  fst (generateDescription limitedThenBlank)
  = Thrown (lit "Empty response received from Gemini API")
  /\ calls (snd (generateDescription limitedThenBlank)) = [1; 2]
  /\ sleeps (snd (generateDescription limitedThenBlank)) = [2000].
Proof.
  apply (proj1 (proj2 (proj2 (generateDescription_retry_policy limitedThenBlank)))
           2 (lit "Empty response received from Gemini API")).
  - lia.
  - intros k Hk. assert (k = 1) as -> by lia.
    exists (lit "429 Rate limit exceeded"). split; reflexivity.
  - reflexivity.
  - reflexivity.
Defined.

(* ------------------------------------------------------------------ *)
(** ** Update modes: what a run leaves for the next run                *)
(* ------------------------------------------------------------------ *)

Section Reruns.

Lemma includes_nil_r (s : jsstring) : includes s [] = true.
Proof. destruct s; reflexivity. Qed.

Lemma includes_inside (pre mid post t : jsstring) :
  includes mid t = true -> includes (pre ++ mid ++ post) t = true.
Proof.
  intros H. apply includes_iff in H as [a [b ->]]. apply includes_iff.
  exists (pre ++ a), (b ++ post). rewrite <- !app_assoc. reflexivity.
Qed.

Lemma includes_trim (u t : jsstring) :
  includes u t = false -> includes (trim u) t = false.
Proof.
  intros H. destruct (includes (trim u) t) eqn:E; [|reflexivity].
  destruct (trim_split u) as [a [b [Hu _]]].
  rewrite Hu, (includes_inside a (trim u) b t E) in H. discriminate.
Qed.

Lemma wrapped_includes_start (content marker : jsstring) :
  includes (wrapWithMarkers content marker) (start (getMarkers marker)) = true.
Proof. apply includes_of_prefix. unfold wrapWithMarkers. apply startsWith_app. Qed.

Lemma firstn_len_app (a b : jsstring) : firstn (Z.to_nat (len a)) (a ++ b) = a.
Proof.
  unfold len. rewrite Nat2Z.id, firstn_app, firstn_all, Nat.sub_diag.
  simpl. apply app_nil_r.
Qed.

Lemma skipn_len_app (a b : jsstring) : skipn (Z.to_nat (len a)) (a ++ b) = b.
Proof.
  unfold len. rewrite Nat2Z.id, skipn_app, skipn_all, Nat.sub_diag. reflexivity.
Qed.

(** User text without markers, a blank line and a wrapped block: where the
    two markers are found. *)
Lemma indexOf_user_block (u X marker : jsstring) :
  validMarker marker = true ->
  includes u marker = false ->
  includes u (end_ (getMarkers marker)) = false ->
  includes X (end_ (getMarkers marker)) = false ->
  indexOf (u ++ [LF; LF] ++ wrapWithMarkers X marker) marker = len u + 2
  /\ indexOf (u ++ [LF; LF] ++ wrapWithMarkers X marker) (end_ (getMarkers marker))
     = len u + 2 + (len marker + len X + 4).
Proof.
  intros Hv HuM HuE HX.
  pose proof (indexOf_end_wrapped X marker Hv HX) as HE.
  pose proof (validMarker_no_LF marker Hv) as HLF.
  pose proof (end_no_LF marker HLF) as HLFE.
  pose proof (end_nonempty marker) as HneE.
  assert (HneM : marker <> []).
  { intros ->. rewrite includes_nil_r in HuM. discriminate. }
  pose proof (len_nonneg u). pose proof (len_nonneg X). pose proof (len_nonneg marker).
  set (W := wrapWithMarkers X marker) in *.
  assert (HW : indexOf W marker = 0) by (apply indexOf_prefix).
  simpl app. split.
  - assert (Hone : indexOf (LF :: W) marker = 1).
    { pose proof (indexOf_sep [] W marker LF HLF HneM (includes_nil_l marker HneM)) as S.
      simpl app in S. rewrite S, HW. reflexivity. }
    rewrite (indexOf_sep u (LF :: W) marker LF HLF HneM HuM), Hone. simpl. lia.
  - set (E := end_ (getMarkers marker)) in *.
    assert (Hone : indexOf (LF :: W) E = len marker + len X + 5).
    { pose proof (indexOf_sep [] W E LF HLFE HneE (includes_nil_l E HneE)) as S.
      simpl app in S. rewrite S, HE.
      destruct (Z.eqb_spec (len marker + len X + 4) (-1)); [lia|].
      change (len []) with 0. lia. }
    rewrite (indexOf_sep u (LF :: W) E LF HLFE HneE HuE), Hone.
    destruct (Z.eqb_spec (len marker + len X + 5) (-1)); lia.
Qed.

Lemma parse_user_block (u X marker : jsstring) :
  validMarker marker = true ->
  includes u marker = false ->
  includes u (end_ (getMarkers marker)) = false ->
  includes X (end_ (getMarkers marker)) = false ->
  wellFormedPair (u ++ [LF; LF] ++ wrapWithMarkers X marker) marker = true
  /\ parseDescription (u ++ [LF; LF] ++ wrapWithMarkers X marker) marker
     = {| beforeMarker := trim u; generatedContent := trim X; afterMarker := [] |}.
Proof.
  intros Hv HuM HuE HX.
  destruct (indexOf_user_block u X marker Hv HuM HuE HX) as [Hs He].
  pose proof (len_nonneg u). pose proof (len_nonneg X). pose proof (len_nonneg marker).
  assert (Hwf : wellFormedPair (u ++ [LF; LF] ++ wrapWithMarkers X marker) marker
                = true).
  { unfold wellFormedPair. change (start (getMarkers marker)) with marker.
    rewrite Hs, He. apply negb_true_iff.
    rewrite !orb_false_iff, !Z.eqb_neq, Z.geb_leb, Z.leb_gt. lia. }
  split; [exact Hwf|].
  rewrite (parseDescription_split _ _ Hwf), Hs, He.
  set (E := end_ (getMarkers marker)).
  assert (Hdoc : u ++ [LF; LF] ++ wrapWithMarkers X marker
                 = ((u ++ [LF; LF]) ++ marker) ++ ([LF; LF] ++ X ++ [LF; LF]) ++ E).
  { unfold wrapWithMarkers. change (start (getMarkers marker)) with marker.
    fold E. rewrite <- !app_assoc. reflexivity. }
  f_equal.
  - rewrite app_assoc.
    replace (len u + 2) with (len (u ++ [LF; LF]))
      by (rewrite len_app; reflexivity).
    rewrite firstn_len_app. apply trim_white_r. reflexivity.
  - rewrite Hdoc.
    replace (len u + 2 + len marker) with (len ((u ++ [LF; LF]) ++ marker))
      by (rewrite !len_app; change (len [LF; LF]) with 2; lia).
    replace (len u + 2 + (len marker + len X + 4))
      with (len ((u ++ [LF; LF]) ++ marker) + len ([LF; LF] ++ X ++ [LF; LF]))
      by (rewrite !len_app; change (len [LF; LF]) with 2; lia).
    rewrite substring_slice, trim_white_l by reflexivity.
    apply trim_white_r. reflexivity.
  - rewrite Hdoc, app_assoc.
    replace (len u + 2 + (len marker + len X + 4) + len E)
      with (len ((((u ++ [LF; LF]) ++ marker) ++ [LF; LF] ++ X ++ [LF; LF]) ++ E))
      by (rewrite !len_app; change (len [LF; LF]) with 2; lia).
    rewrite <- (app_nil_r ((((u ++ [LF; LF]) ++ marker) ++ _) ++ E)) at 2.
    rewrite skipn_len_app. reflexivity.
Qed.

(** The first smart run on a description without markers. *)
Lemma smart_first_run (u g marker : jsstring) :
  includes u (start (getMarkers marker)) = false ->
  applyUpdateMode u g smart marker
  = if truthy (trim u) then trim u ++ [LF; LF] ++ wrapWithMarkers g marker
    else wrapWithMarkers g marker.
Proof.
  intros H. unfold applyUpdateMode, hasGeneratedContent. rewrite H. reflexivity.
Qed.

Lemma parse_smart_output (u g marker : jsstring) :
  validMarker marker = true ->
  includes u (start (getMarkers marker)) = false ->
  includes u (end_ (getMarkers marker)) = false ->
  includes g (end_ (getMarkers marker)) = false ->
  wellFormedPair (applyUpdateMode u g smart marker) marker = true
  /\ parseDescription (applyUpdateMode u g smart marker) marker
     = {| beforeMarker := trim u; generatedContent := trim g; afterMarker := [] |}.
Proof.
  intros Hv HuM HuE Hg. rewrite (smart_first_run u g marker HuM).
  change (start (getMarkers marker)) with marker in HuM.
  destruct (trim u) as [|c r] eqn:E; cbn [truthy].
  - split; [|apply roundtrip_end_free; assumption].
    unfold wellFormedPair. change (start (getMarkers marker)) with marker.
    rewrite (indexOf_end_wrapped g marker Hv Hg).
    replace (indexOf (wrapWithMarkers g marker) marker) with 0
      by (symmetry; apply indexOf_prefix).
    pose proof (len_nonneg g). pose proof (len_nonneg marker).
    apply negb_true_iff. rewrite !orb_false_iff, !Z.eqb_neq, Z.geb_leb, Z.leb_gt. lia.
  - rewrite <- E.
    destruct (parse_user_block (trim u) g marker Hv
                (includes_trim _ _ HuM) (includes_trim _ _ HuE) Hg) as [Hwf Hp].
    split; [exact Hwf|]. rewrite Hp, trim_idem. reflexivity.
Qed.

(** X1.  A description written by smart mode is read back by the parser:
    for a base marker on one line, a description [u] without either marker
    and a generated text without the end marker, the result of smart mode
    parses into [u] trimmed, the generated text trimmed, and nothing after. *)
Theorem smart_output_parses_back (u g marker : jsstring) :
  validMarker marker = true ->
  includes u (start (getMarkers marker)) = false ->
  includes u (end_ (getMarkers marker)) = false ->
  includes g (end_ (getMarkers marker)) = false ->
  parseDescription (applyUpdateMode u g smart marker) marker
  = {| beforeMarker := trim u; generatedContent := trim g; afterMarker := [] |}.
Proof. intros Hv HuM HuE Hg. apply parse_smart_output; assumption. Qed.

Lemma smart_output_parses_back_witness :
  parseDescription
    (applyUpdateMode (lit " User notes ") (lit "Summary") smart DEFAULT_MARKER)
    DEFAULT_MARKER
  = {| beforeMarker := lit "User notes";
       generatedContent := lit "Summary";
       afterMarker := [] |}.
Proof.
  apply (smart_output_parses_back (lit " User notes ") (lit "Summary")
           DEFAULT_MARKER); reflexivity.
Defined.

(** X2.  Running smart mode again replaces the stale block and nothing
    else: on the result of a first smart run (description without markers,
    old text without the end marker, base marker on one line) a second run
    with a new text gives what a first run with the new text gives.  With
    the same text twice, the second run changes nothing. *)
Theorem smart_second_run (u old new marker : jsstring) :
  validMarker marker = true ->
  includes u (start (getMarkers marker)) = false ->
  includes u (end_ (getMarkers marker)) = false ->
  includes old (end_ (getMarkers marker)) = false ->
  applyUpdateMode (applyUpdateMode u old smart marker) new smart marker
  = applyUpdateMode u new smart marker
  /\ applyUpdateMode (applyUpdateMode u old smart marker) old smart marker
     = applyUpdateMode u old smart marker.
Proof.
  intros Hv HuM HuE Hold.
  assert (G : forall g,
             applyUpdateMode (applyUpdateMode u old smart marker) g smart marker
             = applyUpdateMode u g smart marker).
  { intros g.
    destruct (parse_smart_output u old marker Hv HuM HuE Hold) as [Hwf Hp].
    rewrite (smart_wellFormed _ g _ Hwf), Hp. cbn [beforeMarker afterMarker truthy].
    rewrite (smart_first_run u g marker HuM), app_nil_r.
    destruct (truthy (trim u)); [|reflexivity].
    rewrite <- app_assoc. reflexivity. }
  split; apply G.
Qed.

Lemma smart_second_run_witness :
  applyUpdateMode
    (applyUpdateMode (lit "User notes") (lit "Old") smart DEFAULT_MARKER)
    (lit "New") smart DEFAULT_MARKER
  = applyUpdateMode (lit "User notes") (lit "New") smart DEFAULT_MARKER.
Proof.
  apply (smart_second_run (lit "User notes") (lit "Old") (lit "New")
           DEFAULT_MARKER); reflexivity.
Defined.

(** X3.  Whatever the mode, the description and the generated text, the
    result of [applyUpdateMode] holds both markers, so that
    [hasGeneratedContent] is true of it. *)
Theorem applyUpdateMode_leaves_markers
    (existing generated : jsstring) (mode : UpdateMode) (marker : jsstring) :
  hasGeneratedContent (applyUpdateMode existing generated mode marker) marker
  = true.
Proof.
  assert (K : forall pre post,
             hasGeneratedContent (pre ++ wrapWithMarkers generated marker ++ post)
               marker = true).
  { intros pre post. unfold hasGeneratedContent.
    rewrite !includes_inside;
      [reflexivity | apply wrapped_includes_end | apply wrapped_includes_start]. }
  assert (K0 : hasGeneratedContent (wrapWithMarkers generated marker) marker = true).
  { pose proof (K [] []) as H. simpl app in H. rewrite app_nil_r in H. exact H. }
  destruct mode; try exact K0.
  - unfold applyUpdateMode. destruct (truthy (trim existing)); [|exact K0].
    pose proof (K (trim existing ++ [LF; LF] ++ lit "---" ++ [LF; LF]) []) as H.
    rewrite app_nil_r, <- !app_assoc in H. exact H.
  - destruct (wellFormedPair existing marker) eqn:W.
    + rewrite (smart_wellFormed _ _ _ W). apply K.
    + destruct (smart_not_wellFormed existing generated marker W)
        as [kept [_ ->]].
      pose proof (K (if truthy kept then kept ++ [LF; LF] else []) []) as H.
      rewrite app_nil_r in H. exact H.
Qed.

(** X4.  On a blank description the four modes agree: the result is the
    wrapped generated text and nothing else. *)
Theorem applyUpdateMode_blank
    (existing generated : jsstring) (mode : UpdateMode) (marker : jsstring) :
  trim existing = [] ->
  applyUpdateMode existing generated mode marker
  = wrapWithMarkers generated marker.
Proof.
  intros H. destruct mode; unfold applyUpdateMode; rewrite ?H; try reflexivity.
  destruct (hasGeneratedContent existing marker) eqn:G; [|reflexivity].
  exfalso. unfold hasGeneratedContent in G. apply andb_true_iff in G as [_ G].
  exact (includes_end_not_blank _ _ G H).
Qed.

Lemma applyUpdateMode_blank_witness :
  applyUpdateMode (lit "  " ++ [LF]) (lit "Summary") smart DEFAULT_MARKER
  = wrapWithMarkers (lit "Summary") DEFAULT_MARKER.
Proof.
  apply (applyUpdateMode_blank (lit "  " ++ [LF]) (lit "Summary") smart
           DEFAULT_MARKER).
  reflexivity.
Defined.

Lemma trim_fixed (c : codeUnit) (q : jsstring) (x : codeUnit) :
  isWhite c = false -> isWhite x = false ->
  trim ((c :: q) ++ [x]) = (c :: q) ++ [x].
Proof.
  intros Hc Hx. unfold trim. simpl app. rewrite trimStart_fixed by exact Hc.
  unfold trimEnd.
  assert (R : rev (c :: q ++ [x]) = x :: rev (c :: q)).
  { change (c :: q ++ [x]) with ((c :: q) ++ [x]). rewrite rev_app_distr.
    reflexivity. }
  rewrite R, trimStart_fixed by exact Hx.
  change (rev (x :: rev (c :: q))) with (rev (rev (c :: q)) ++ [x]).
  rewrite rev_involutive. reflexivity.
Qed.

(** X5.  For a marker written as a comment, ["<!-- "], a name that ends with
    a character other than white space, and [" -->"], the end marker is the
    same comment with ["-end"] put after the name. *)
Theorem getMarkers_comment (q : jsstring) (x : codeUnit) :
  isWhite x = false ->
  end_ (getMarkers (lit "<!-- " ++ (q ++ [x]) ++ lit " -->"))
  = lit "<!-- " ++ (q ++ [x]) ++ lit "-end -->".
Proof.
  intros Hx. unfold getMarkers. cbn [end_].
  assert (R : replaceClosing (lit "<!-- " ++ (q ++ [x]) ++ lit " -->")
              = (lit "<!-- " ++ q) ++ [x]).
  { pose proof (replaceClosing_closed (lit "<!-- " ++ q) [32%N] x Hx eq_refl) as C.
    rewrite <- C. f_equal. rewrite <- !app_assoc. reflexivity. }
  rewrite R.
  assert (T : trim ((lit "<!-- " ++ q) ++ [x]) = (lit "<!-- " ++ q) ++ [x]).
  { apply (trim_fixed 60%N (lit "!-- " ++ q) x); [reflexivity | exact Hx]. }
  rewrite T, <- !app_assoc. reflexivity.
Qed.

Lemma getMarkers_comment_witness :
  end_ (getMarkers (lit "<!-- " ++ (lit "my-bo" ++ [116%N]) ++ lit " -->"))
  = lit "<!-- " ++ (lit "my-bo" ++ [116%N]) ++ lit "-end -->".
Proof. apply (getMarkers_comment (lit "my-bo") 116%N). reflexivity. Defined.

End Reruns.

(* ------------------------------------------------------------------ *)
(** ** The diff reducer: what it keeps                                 *)
(* ------------------------------------------------------------------ *)

Section ReducerKeeps.

Variable localeCompare : jsstring -> jsstring -> Z.

Lemma sumOf_acc (g : FileChange -> Z) (l : list FileChange) (a : Z) :
  fold_left (fun sum f => sum + g f) l a = a + sumOf g l.
Proof.
  unfold sumOf. revert a. induction l as [|f l IH]; intros a; simpl.
  - lia.
  - rewrite IH, (IH (g f)). lia.
Qed.

Lemma sumOf_cons (g : FileChange -> Z) (f : FileChange) (l : list FileChange) :
  sumOf g (f :: l) = g f + sumOf g l.
Proof. unfold sumOf at 1. simpl. apply sumOf_acc. Qed.

Lemma sumOf_map (g : FileChange -> Z) (l : list FileChange) :
  sumOf g l = fold_right Z.add 0 (map g l).
Proof.
  induction l as [|f l IH]; [reflexivity|].
  rewrite sumOf_cons, IH. reflexivity.
Qed.

Lemma sum_perm (l1 l2 : list Z) :
  Permutation l1 l2 -> fold_right Z.add 0 l1 = fold_right Z.add 0 l2.
Proof. induction 1; simpl; lia. Qed.

Lemma totalDiffSize_nonneg (l : list FileChange) : 0 <= totalDiffSize l.
Proof.
  induction l as [|f l IH]; [unfold totalDiffSize; simpl; lia|].
  rewrite totalDiffSize_cons. pose proof (patchLength_nonneg f). lia.
Qed.

Lemma substring_prefix_firstn (p : jsstring) (k : Z) :
  exists n, substring p 0 k = firstn n p.
Proof.
  unfold substring, clampIndex. pose proof (len_nonneg p).
  replace (Z.min (Z.min (Z.max 0 0) (len p)) (Z.min (Z.max k 0) (len p)))
    with 0 by lia.
  eexists. reflexivity.
Qed.

Lemma truncateStep_cut (maxDiffSize : Z) (st : loopState) (f : FileChange) :
  exists g, snd (truncateStep maxDiffSize st f) = snd st ++ [g] /\ cutFrom f g.
Proof.
  destruct st as [currentSize result]. unfold truncateStep. cbv zeta.
  destruct (currentSize + patchLength f <=? maxDiffSize);
    [|destruct (currentSize <? maxDiffSize)]; cbn [snd]; eexists;
    (split; [reflexivity|]); split; try reflexivity.
  - left. reflexivity.
  - cbn [patch withPatch]. destruct (patch f) as [p|]; cbn [option_map].
    + destruct (substring_prefix_firstn p (maxDiffSize - currentSize)) as [n Hn].
      destruct (substring p 0 (maxDiffSize - currentSize)) as [|c t] eqn:E.
      * right. left. reflexivity.
      * right. right. exists p, n. rewrite <- Hn. auto.
    + left. reflexivity.
  - right. left. reflexivity.
Qed.

Lemma loop_cut (maxDiffSize : Z) (l : list FileChange) (st : loopState) :
  exists res, snd (fold_left (truncateStep maxDiffSize) l st) = snd st ++ res
              /\ Forall2 cutFrom l res.
Proof.
  revert st. induction l as [|f l IH]; intros st; simpl.
  - exists []. rewrite app_nil_r. split; [reflexivity | constructor].
  - destruct (truncateStep_cut maxDiffSize st f) as [g [Hg Hc]].
    destruct (IH (truncateStep maxDiffSize st f)) as [res [Hr Hf]].
    exists (g :: res). rewrite Hr, Hg, <- app_assoc. split; [reflexivity|].
    constructor; assumption.
Qed.

Lemma Forall2_In_r {A B : Type} (R : A -> B -> Prop) (l : list A) (l' : list B) y :
  Forall2 R l l' -> In y l' -> exists x, In x l /\ R x y.
Proof.
  induction 1 as [|a b l l' Hab Hf IH]; intros Hy; [contradiction|].
  destruct Hy as [->|Hy].
  - exists a. split; [left; reflexivity | exact Hab].
  - destruct (IH Hy) as [x [Hx Hr]]. exists x. split; [right; exact Hx | exact Hr].
Qed.

Lemma Forall2_map_eq {A B C : Type} (R : A -> B -> Prop) (g : A -> C) (h : B -> C)
    (l : list A) (l' : list B) :
  (forall a b, R a b -> h b = g a) -> Forall2 R l l' -> map h l' = map g l.
Proof.
  intros H. induction 1 as [|a b l l' Hab Hf IH]; simpl; [reflexivity|].
  rewrite IH, (H a b Hab). reflexivity.
Qed.

Lemma truncatePatches_cut (files : list FileChange) (maxDiffSize : Z) :
  exists res,
    Permutation (truncatePatches localeCompare files maxDiffSize) res
    /\ Forall2 cutFrom (sortBy bySizeDesc files) res.
Proof.
  rewrite truncatePatches_unfold.
  destruct (loop_cut maxDiffSize (sortBy bySizeDesc files) (0, [])) as [res [Hr Hf]].
  exists res. rewrite Hr. split; [apply sortBy_perm | exact Hf].
Qed.

Lemma reduceFiles_cut (files : list FileChange) (maxDiffSize : Z) :
  exists src res,
    Permutation src files
    /\ Permutation (reduceFiles localeCompare files maxDiffSize) res
    /\ Forall2 cutFrom src res.
Proof.
  unfold reduceFiles. destruct (totalDiffSize files >? maxDiffSize).
  - destruct (truncatePatches_cut files maxDiffSize) as [res [Hp Hf]].
    exists (sortBy bySizeDesc files), res.
    split; [apply sortBy_perm | split; assumption].
  - exists files, files. split; [apply Permutation_refl|].
    split; [apply Permutation_refl|].
    induction files as [|f l IH]; constructor; [|exact IH].
    split; [reflexivity | left; reflexivity].
Qed.

(** X6.  The reducer invents nothing: every file it returns is one of the
    files it was given, with the same name, status and counts, and with a
    patch that is the patch it had, or no patch, or a prefix of the patch it
    had followed by the truncation text. *)
Theorem reduceFiles_patch_origin
    (files : list FileChange) (maxDiffSize : Z) (g : FileChange) :
  In g (reduceFiles localeCompare files maxDiffSize) ->
  exists f, In f files /\ cutFrom f g.
Proof.
  intros Hg. destruct (reduceFiles_cut files maxDiffSize) as [src [res [Hs [Hp Hf]]]].
  destruct (Forall2_In_r _ _ _ _ Hf (Permutation_in _ Hp Hg)) as [f [Hin Hc]].
  exists f. split; [eapply Permutation_in; eassumption | exact Hc].
Qed.

Lemma reduceFiles_metadata (files : list FileChange) (maxDiffSize : Z) :
  Permutation (map metadata (reduceFiles localeCompare files maxDiffSize))
              (map metadata files)
  /\ sumOf additions (reduceFiles localeCompare files maxDiffSize)
     = sumOf additions files
  /\ sumOf deletions (reduceFiles localeCompare files maxDiffSize)
     = sumOf deletions files.
Proof.
  destruct (reduceFiles_cut files maxDiffSize) as [src [res [Hs [Hp Hf]]]].
  assert (M : forall h : FileChange -> Z,
             (forall a b, cutFrom a b -> h b = h a) ->
             sumOf h (reduceFiles localeCompare files maxDiffSize) = sumOf h files).
  { intros h Hh. rewrite !sumOf_map.
    rewrite (sum_perm _ _ (Permutation_map h Hp)).
    rewrite (Forall2_map_eq cutFrom h h src res Hh Hf).
    apply sum_perm, Permutation_map, Hs. }
  split; [|split].
  - eapply perm_trans; [apply Permutation_map, Hp|].
    rewrite (Forall2_map_eq cutFrom metadata metadata src res);
      [|intros a b [Hm _]; exact Hm | exact Hf].
    apply Permutation_map, Hs.
  - apply M. intros a b [Hm _]. unfold metadata in Hm. congruence.
  - apply M. intros a b [Hm _]. unfold metadata in Hm. congruence.
Qed.

(** X7.  Cutting patches changes no count: the files returned carry the
    name, status, additions and deletions of the files given, each once, so
    that the totals of additions and of deletions are those of the input. *)
Theorem reduceFiles_keeps_metadata (files : list FileChange) (maxDiffSize : Z) :
  Permutation (map metadata (reduceFiles localeCompare files maxDiffSize))
              (map metadata files)
  /\ sumOf additions (reduceFiles localeCompare files maxDiffSize)
     = sumOf additions files
  /\ sumOf deletions (reduceFiles localeCompare files maxDiffSize)
     = sumOf deletions files.
Proof. exact (reduceFiles_metadata files maxDiffSize). Qed.

Lemma truncateStep_fit (maxDiffSize c : Z) (acc : list FileChange) (f : FileChange) :
  c + patchLength f <= maxDiffSize ->
  truncateStep maxDiffSize (c, acc) f = (c + patchLength f, acc ++ [f]).
Proof.
  intros H. unfold truncateStep. cbv zeta.
  destruct (Z.leb_spec (c + patchLength f) maxDiffSize); [reflexivity | lia].
Qed.

Lemma truncateStep_full (maxDiffSize c : Z) (acc : list FileChange) (f : FileChange) :
  maxDiffSize < c + patchLength f -> maxDiffSize <= c ->
  truncateStep maxDiffSize (c, acc) f = (c, acc ++ [withPatch f None]).
Proof.
  intros H1 H2. unfold truncateStep. cbv zeta.
  destruct (Z.leb_spec (c + patchLength f) maxDiffSize); [lia|].
  destruct (Z.ltb_spec c maxDiffSize); [lia | reflexivity].
Qed.

Lemma loop_fits (maxDiffSize : Z) (l : list FileChange) (c : Z)
    (acc : list FileChange) :
  c + totalDiffSize l <= maxDiffSize ->
  fold_left (truncateStep maxDiffSize) l (c, acc) = (c + totalDiffSize l, acc ++ l).
Proof.
  revert c acc. induction l as [|f l IH]; intros c acc H.
  - simpl. change (totalDiffSize []) with 0. rewrite app_nil_r. f_equal. lia.
  - rewrite totalDiffSize_cons in *. pose proof (totalDiffSize_nonneg l).
    cbn [fold_left]. rewrite truncateStep_fit by lia.
    rewrite IH by lia. rewrite <- app_assoc. f_equal. lia.
Qed.

(** X8.  When all the patches together fit the budget, [truncatePatches]
    cuts and drops nothing: it returns the files it was given, patches
    included, arranged by size and then by name. *)
Theorem truncatePatches_within_budget (files : list FileChange) (maxDiffSize : Z) :
  totalDiffSize files <= maxDiffSize ->
  truncatePatches localeCompare files maxDiffSize
  = sortBy (byFilename localeCompare) (sortBy bySizeDesc files)
  /\ Permutation (truncatePatches localeCompare files maxDiffSize) files.
Proof.
  intros H.
  assert (E : truncatePatches localeCompare files maxDiffSize
              = sortBy (byFilename localeCompare) (sortBy bySizeDesc files)).
  { rewrite truncatePatches_unfold, loop_fits.
    - reflexivity.
    - rewrite (totalDiffSize_perm _ _ (sortBy_perm bySizeDesc files)). lia. }
  split; [exact E|]. rewrite E.
  eapply perm_trans; apply sortBy_perm.
Qed.

Lemma loop_no_budget (maxDiffSize : Z) (l : list FileChange) (acc : list FileChange) :
  maxDiffSize <= 0 ->
  Forall (fun g => patchLength g = 0) acc ->
  Forall (fun g => patchLength g = 0)
         (snd (fold_left (truncateStep maxDiffSize) l (0, acc))).
Proof.
  intros Hm. revert acc. induction l as [|f l IH]; intros acc Hacc.
  - exact Hacc.
  - cbn [fold_left]. pose proof (patchLength_nonneg f) as Hp.
    destruct (Z.le_gt_cases (0 + patchLength f) maxDiffSize) as [L|L].
    + rewrite truncateStep_fit by exact L.
      replace (0 + patchLength f) with 0 by lia.
      apply IH. apply Forall_app. split; [exact Hacc|].
      constructor; [lia | constructor].
    + rewrite truncateStep_full by lia.
      apply IH. apply Forall_app. split; [exact Hacc|].
      constructor; [reflexivity | constructor].
Qed.

Lemma Forall_zero_total (l : list FileChange) :
  Forall (fun g => patchLength g = 0) l -> totalDiffSize l = 0.
Proof.
  induction 1 as [|g l Hg Hl IH]; [reflexivity|].
  rewrite totalDiffSize_cons. lia.
Qed.

Lemma no_budget_no_patch (files : list FileChange) (maxDiffSize : Z) :
  maxDiffSize <= 0 ->
  Forall (fun g => patchLength g = 0)
         (truncatePatches localeCompare files maxDiffSize).
Proof.
  intros H. rewrite truncatePatches_unfold.
  pose proof (loop_no_budget maxDiffSize (sortBy bySizeDesc files) [] H
                (Forall_nil _)) as Hf.
  rewrite Forall_forall in *. intros g Hg. apply Hf.
  eapply Permutation_in; [apply sortBy_perm | exact Hg].
Qed.

(** X9.  With a budget of zero or less, [truncatePatches] keeps no patch
    text at all: every file it returns has no patch or an empty one. *)
Theorem truncatePatches_no_budget (files : list FileChange) (maxDiffSize : Z) :
  maxDiffSize <= 0 ->
  Forall (fun g => patchLength g = 0)
         (truncatePatches localeCompare files maxDiffSize).
Proof. exact (no_budget_no_patch files maxDiffSize). Qed.

Lemma reduceFiles_bound_int (files : list FileChange) (maxDiffSize : Z) :
  totalDiffSize (reduceFiles localeCompare files maxDiffSize)
  <= Z.max maxDiffSize 0 + 16.
Proof.
  unfold reduceFiles.
  destruct (Z.gtb_spec (totalDiffSize files) maxDiffSize) as [G|G]; [|lia].
  destruct (Z.le_gt_cases 0 maxDiffSize) as [P|P].
  - pose proof (truncatePatches_budget_slack localeCompare files maxDiffSize P). lia.
  - rewrite (Forall_zero_total _ (no_budget_no_patch files maxDiffSize
                                    ltac:(lia))). lia.
Qed.

(** X10.  For a budget that is a number, the patches that [fetchPRDiff]
    passes on after its gate and [truncatePatches] total at most the budget,
    or zero when the budget is negative, plus the 16 code units of the
    truncation text.  For a budget that is not a number, which [parseInt]
    gives for an unreadable [max_diff_size] and nothing refuses, the gate is
    closed and the files are passed on as they came, whatever their size. *)
Theorem reduceFiles_total_bound (files : list FileChange) (maxDiffSize : option Z) :
  match maxDiffSize with
  | Some budget =>
      totalDiffSize (reduceFilesNumber localeCompare files maxDiffSize)
      <= Z.max budget 0 + 16
  | None => reduceFilesNumber localeCompare files maxDiffSize = files
  end.
Proof.
  destruct maxDiffSize as [budget|]; [|reflexivity].
  apply reduceFiles_bound_int.
Qed.

End ReducerKeeps.

Lemma reduceFiles_patch_origin_witness :
  exists f, In f sampleFiles
            /\ cutFrom f (withPatch (fileOf (lit "src/b.ts") (lit "0123456789"))
                                    (Some (lit "01234" ++ TRUNCATED))).
Proof.
  apply (reduceFiles_patch_origin codeUnitCompare sampleFiles 5).
  vm_compute. tauto.
Defined.

Lemma truncatePatches_within_budget_witness :
  truncatePatches codeUnitCompare sampleFiles 16
  = sortBy (byFilename codeUnitCompare) (sortBy bySizeDesc sampleFiles)
  /\ Permutation (truncatePatches codeUnitCompare sampleFiles 16) sampleFiles.
Proof.
  apply (truncatePatches_within_budget codeUnitCompare sampleFiles 16).
  vm_compute. discriminate.
Defined.

Lemma truncatePatches_no_budget_witness :
  Forall (fun g => patchLength g = 0) (truncatePatches codeUnitCompare sampleFiles 0).
Proof. apply (truncatePatches_no_budget codeUnitCompare sampleFiles 0). lia. Defined.

(* ------------------------------------------------------------------ *)
(** ** The generator: every way the loop can end                       *)
(* ------------------------------------------------------------------ *)

Section GeneratorOutcomes.

Lemma tryBody_returns (o : ApiOutcome) (text : jsstring) :
  tryBody o = inl text ->
  exists raw, o = Responds raw /\ text = trim raw /\ text <> [].
Proof.
  destruct o as [m| |raw]; simpl; try discriminate.
  destruct (negb (truthy raw) || (len (trim raw) =? 0)) eqn:E; [discriminate|].
  intros H. injection H as <-. exists raw. split; [reflexivity|].
  split; [reflexivity|]. intros T. rewrite T in E.
  rewrite orb_true_r in E. discriminate.
Qed.

Lemma transientAt_intro (api : Z -> ApiOutcome) (k : Z) (m : jsstring) :
  tryBody (api k) = inr m -> isRetryableError m = true -> transientAt api k.
Proof. intros H1 H2. exists m. auto. Qed.

Lemma retry_outcomes (api : Z -> ApiOutcome) :
  exists n,
    1 <= n <= 3
    /\ (forall k, 1 <= k < n -> transientAt api k)
    /\ snd (generateDescription api) = traceUpTo n
    /\ ((exists text, tryBody (api n) = inl text
                      /\ fst (generateDescription api) = Returned text)
        \/ (exists m, tryBody (api n) = inr m
                      /\ fst (generateDescription api) = Thrown m
                      /\ (isRetryableError m = false \/ n = 3))).
Proof.
  unfold generateDescription. cbn [retryLoop].
  change (1 <=? maxRetries) with true. cbv iota.
  destruct (tryBody (api 1)) as [t1|m1] eqn:B1.
  { exists 1. repeat split; try lia. left. eauto. }
  destruct (isRetryableError m1) eqn:R1.
  2:{ exists 1. repeat split; try lia. right. eauto. }
  pose proof (transientAt_intro api 1 m1 B1 R1) as T1.
  change (1 <? maxRetries) with true. change (1 + 1) with 2.
  change (2 <=? maxRetries) with true. cbv iota.
  destruct (tryBody (api 2)) as [t2|m2] eqn:B2.
  { exists 2. repeat split; try lia.
    - intros k Hk. assert (k = 1) as -> by lia. exact T1.
    - left. eauto. }
  destruct (isRetryableError m2) eqn:R2.
  2:{ exists 2. repeat split; try lia.
      - intros k Hk. assert (k = 1) as -> by lia. exact T1.
      - right. eauto. }
  pose proof (transientAt_intro api 2 m2 B2 R2) as T2.
  change (2 <? maxRetries) with true. change (2 + 1) with 3.
  change (3 <=? maxRetries) with true. cbv iota.
  assert (T12 : forall k, 1 <= k < 3 -> transientAt api k).
  { intros k Hk. assert (C : k = 1 \/ k = 2) by lia.
    destruct C as [-> | ->]; assumption. }
  destruct (tryBody (api 3)) as [t3|m3] eqn:B3.
  { exists 3. repeat split; try lia; [exact T12|]. left. eauto. }
  destruct (isRetryableError m3) eqn:R3.
  2:{ exists 3. repeat split; try lia; [exact T12|]. right. eauto. }
  change (3 <? maxRetries) with false. change (3 + 1) with 4.
  change (4 <=? maxRetries) with false. cbv iota.
  exists 3. repeat split; try lia; [exact T12|]. right. eauto.
Qed.

(** X11.  The loop ends in an attempt [n] between 1 and 3, the attempts
    before [n] having failed with transient errors; its events are the calls
    1 to [n] with a wait of 2000 ms after the first and of 4000 ms after the
    second; and either attempt [n] gave a text that is not blank, which is
    returned trimmed, or it failed and its error is thrown, being not
    transient or the error of the third attempt. *)
Theorem generateDescription_outcomes (api : Z -> ApiOutcome) :
  exists n,
    1 <= n <= 3
    /\ (forall k, 1 <= k < n -> transientAt api k)
    /\ snd (generateDescription api) = traceUpTo n
    /\ ((exists text, tryBody (api n) = inl text
                      /\ fst (generateDescription api) = Returned text)
        \/ (exists m, tryBody (api n) = inr m
                      /\ fst (generateDescription api) = Thrown m
                      /\ (isRetryableError m = false \/ n = 3))).
Proof. exact (retry_outcomes api). Qed.

(** X12.  A text that [generateDescription] returns is never blank and has
    no white space at either end: it is the trimmed text of the response of
    one of the three attempts. *)
Theorem generateDescription_returns_trimmed (api : Z -> ApiOutcome) (text : jsstring) :
  fst (generateDescription api) = Returned text ->
  text <> [] /\ trim text = text
  /\ exists n raw, 1 <= n <= 3 /\ api n = Responds raw /\ text = trim raw.
Proof.
  intros H.
  destruct (retry_outcomes api) as [n [Hn [_ [_ [C|C]]]]].
  - destruct C as [t [Hb Hf]]. rewrite Hf in H. injection H as ->.
    destruct (tryBody_returns _ _ Hb) as [raw [Ho [Ht Hne]]].
    split; [exact Hne|]. split.
    + rewrite Ht. apply trim_idem.
    + exists n, raw. auto.
  - destruct C as [m [_ [Hf _]]]. rewrite Hf in H. discriminate.
Qed.

Lemma generateDescription_returns_trimmed_witness :
  lit "Summary" <> [] /\ trim (lit "Summary") = lit "Summary"
  /\ exists n raw, 1 <= n <= 3 /\ answersPadded n = Responds raw
                   /\ lit "Summary" = trim raw.
Proof.
  apply (generateDescription_returns_trimmed answersPadded (lit "Summary")).
  reflexivity.
Defined.

(** X13.  The loop waits only between attempts: one wait fewer than calls,
    never after the last call, and never more than 6000 ms in all. *)
Theorem generateDescription_waits (api : Z -> ApiOutcome) :
  S (List.length (sleeps (snd (generateDescription api))))
  = List.length (calls (snd (generateDescription api)))
  /\ (forall d, exists k, last (snd (generateDescription api)) d = Call k)
  /\ fold_right Z.add 0 (sleeps (snd (generateDescription api))) <= 6000.
Proof.
  destruct (retry_outcomes api) as [n [Hn [_ [Ht _]]]].
  rewrite Ht. assert (C : n = 1 \/ n = 2 \/ n = 3) by lia.
  destruct C as [-> | [-> | ->]]; (split; [reflexivity|]);
    (split; [intros d; eexists; reflexivity | vm_compute; discriminate]).
Qed.

(** X14.  [validateModel] warns exactly when the name of the model does not
    begin with ["gemini-"]: every name in the list of known models begins
    so, and the look-up in the list decides nothing. *)
Theorem validateModel_prefix (model : jsstring) :
  validateModel model = negb (startsWith model (lit "gemini-")).
Proof.
  unfold validateModel. cbv zeta.
  destruct (startsWith model (lit "gemini-")) eqn:P.
  - apply andb_false_r.
  - simpl negb at 2. rewrite andb_true_r.
    destruct (existsb (streq model) getAvailableModels) eqn:E; [|reflexivity].
    exfalso. apply existsb_exists in E as [m [Hin Heq]].
    apply streq_eq in Heq. subst m.
    unfold getAvailableModels in Hin. simpl in Hin.
    repeat (destruct Hin as [Hin|Hin];
            [rewrite <- Hin in P; vm_compute in P; discriminate|]).
    exact Hin.
Qed.

End GeneratorOutcomes.

(* ------------------------------------------------------------------ *)
(** ** The exclude patterns of the inputs                              *)
(* ------------------------------------------------------------------ *)

Section ExcludePatterns.

Lemma includes_cons (c : codeUnit) (s t : jsstring) :
  includes s t = true -> includes (c :: s) t = true.
Proof. intros H. cbn [includes]. rewrite H. apply orb_true_r. Qed.

Lemma splitComma_shape (s : jsstring) :
  exists piece pieces,
    splitComma s = piece :: pieces
    /\ startsWith s piece = true
    /\ (forall p, In p pieces -> includes s p = true).
Proof.
  induction s as [|c s [piece [pieces [Hs [Hp Hi]]]]].
  - exists [], []. repeat split. intros p [].
  - cbn [splitComma]. destruct (N.eqb_spec c 44) as [->|Hc].
    + exists [], (splitComma s). split; [reflexivity|]. split; [reflexivity|].
      intros p Hin. apply includes_cons. rewrite Hs in Hin.
      destruct Hin as [<-|Hin]; [apply includes_of_prefix, Hp | apply Hi, Hin].
    + rewrite Hs. exists (c :: piece), pieces. split; [reflexivity|]. split.
      * cbn [startsWith]. rewrite N.eqb_refl. exact Hp.
      * intros p Hin. apply includes_cons, Hi, Hin.
Qed.

Lemma splitComma_includes (s p : jsstring) :
  In p (splitComma s) -> includes s p = true.
Proof.
  destruct (splitComma_shape s) as [piece [pieces [Hs [Hp Hi]]]].
  rewrite Hs. intros [<-|Hin]; [apply includes_of_prefix, Hp | apply Hi, Hin].
Qed.

Lemma commaFree_cons (c : codeUnit) (p : jsstring) :
  commaFree (c :: p) = negb (c =? COMMA)%N && commaFree p.
Proof.
  unfold commaFree. cbn [existsb]. rewrite negb_orb, (N.eqb_sym COMMA c).
  reflexivity.
Qed.

Lemma splitComma_commaFree (s : jsstring) :
  Forall (fun p => commaFree p = true) (splitComma s).
Proof.
  induction s as [|c s IH]; cbn [splitComma].
  - repeat constructor.
  - destruct (N.eqb_spec c 44) as [->|Hc].
    + constructor; [reflexivity | exact IH].
    + destruct (splitComma s) as [|piece pieces]; [repeat constructor|].
      * rewrite commaFree_cons. apply andb_true_iff. split; [|reflexivity].
        apply negb_true_iff, N.eqb_neq. exact Hc.
      * inversion IH as [|? ? Hp Hr]; subst. constructor; [|exact Hr].
        rewrite commaFree_cons, Hp. rewrite andb_true_r.
        apply negb_true_iff, N.eqb_neq. exact Hc.
Qed.

Lemma commaFree_In (p : jsstring) : commaFree p = true <-> ~ In COMMA p.
Proof.
  unfold commaFree. rewrite negb_true_iff. split.
  - intros H G. assert (E : existsb (N.eqb COMMA) p = true).
    { apply existsb_exists. exists COMMA. split; [exact G | apply N.eqb_refl]. }
    congruence.
  - intros H. destruct (existsb (N.eqb COMMA) p) eqn:E; [|reflexivity].
    exfalso. apply existsb_exists in E as [x [Hx Hc]].
    apply N.eqb_eq in Hc. subst x. exact (H Hx).
Qed.

Lemma commaFree_trim (p : jsstring) : commaFree p = true -> commaFree (trim p) = true.
Proof.
  rewrite !commaFree_In. intros H G. apply H. apply trim_In. exact G.
Qed.

(** X15.  Every pattern that [parseInputs] keeps of the input
    [exclude_patterns] is part of that input, is not empty, holds no comma
    and has no white space at either end. *)
Theorem parseExcludePatterns_clean (excludePatternsRaw p : jsstring) :
  In p (parseExcludePatterns excludePatternsRaw) ->
  cleanPattern p = true /\ includes excludePatternsRaw p = true.
Proof.
  unfold parseExcludePatterns. intros H.
  apply filter_In in H as [H Hlen]. apply in_map_iff in H as [q [<- Hq]].
  rewrite truthy_len in Hlen. split.
  - unfold cleanPattern. rewrite Hlen, trim_idem. cbn [andb].
    apply andb_true_iff. split.
    + apply commaFree_trim.
      pose proof (splitComma_commaFree excludePatternsRaw) as F.
      rewrite Forall_forall in F. apply F, Hq.
    + apply streq_eq. reflexivity.
  - pose proof (splitComma_includes _ _ Hq) as I.
    apply includes_iff in I as [pre [post ->]].
    apply includes_inside.
    destruct (trim_split q) as [a [b [Hs _]]].
    apply includes_iff. exists a, b. exact Hs.
Qed.

Lemma parseExcludePatterns_clean_witness :
  cleanPattern (lit "dist/**") = true
  /\ includes (lit "*.json, dist/** ,,") (lit "dist/**") = true.
Proof.
  apply (parseExcludePatterns_clean (lit "*.json, dist/** ,,") (lit "dist/**")).
  vm_compute. tauto.
Defined.

Lemma splitComma_app (p s : jsstring) :
  commaFree p = true -> splitComma (p ++ COMMA :: s) = p :: splitComma s.
Proof.
  induction p as [|c p IH]; intros H.
  - reflexivity.
  - rewrite commaFree_cons in H. apply andb_true_iff in H as [Hc Hp].
    simpl app. cbn [splitComma]. apply negb_true_iff in Hc.
    change 44%N with COMMA. rewrite Hc, (IH Hp). reflexivity.
Qed.

Lemma splitComma_single (p : jsstring) :
  commaFree p = true -> splitComma p = [p].
Proof.
  induction p as [|c p IH]; intros H.
  - reflexivity.
  - rewrite commaFree_cons in H. apply andb_true_iff in H as [Hc Hp].
    cbn [splitComma]. apply negb_true_iff in Hc.
    change 44%N with COMMA. rewrite Hc, (IH Hp). reflexivity.
Qed.

Lemma splitComma_join (p : jsstring) (ps : list jsstring) :
  Forall (fun q => commaFree q = true) (p :: ps) ->
  splitComma (join [COMMA] (p :: ps)) = p :: ps.
Proof.
  revert p. induction ps as [|q ps IH]; intros p H.
  - inversion H; subst. apply splitComma_single. assumption.
  - inversion H as [|? ? Hp Hr]; subst.
    change (join [COMMA] (p :: q :: ps)) with (p ++ COMMA :: join [COMMA] (q :: ps)).
    rewrite splitComma_app by exact Hp. rewrite (IH q Hr). reflexivity.
Qed.

(** X16.  Writing patterns with commas between them and reading them as
    [parseInputs] does gives the patterns back, when none of them is empty,
    holds a comma or has white space at either end. *)
Theorem parseExcludePatterns_join (patterns : list jsstring) :
  forallb cleanPattern patterns = true ->
  parseExcludePatterns (join [COMMA] patterns) = patterns.
Proof.
  intros H. destruct patterns as [|p ps]; [reflexivity|].
  rewrite forallb_forall in H.
  assert (C : forall q, In q (p :: ps) ->
                        truthy q = true /\ commaFree q = true /\ trim q = q).
  { intros q Hq. pose proof (H q Hq) as K. unfold cleanPattern in K.
    apply andb_true_iff in K as [K K3]. apply andb_true_iff in K as [K1 K2].
    apply streq_eq in K3. auto. }
  unfold parseExcludePatterns. rewrite splitComma_join.
  2:{ apply Forall_forall. intros q Hq. apply C, Hq. }
  assert (M : map trim (p :: ps) = p :: ps).
  { rewrite <- (map_id (p :: ps)) at 2. apply map_ext_in.
    intros q Hq. apply C, Hq. }
  rewrite M. apply forallb_filter_id. apply forallb_forall.
  intros q Hq. rewrite truthy_len. apply C, Hq.
Qed.

Lemma parseExcludePatterns_join_witness :
  parseExcludePatterns (join [COMMA] [lit "*.json"; lit "dist/**"])
  = [lit "*.json"; lit "dist/**"].
Proof.
  apply (parseExcludePatterns_join [lit "*.json"; lit "dist/**"]). reflexivity.
Defined.

End ExcludePatterns.

(* ------------------------------------------------------------------ *)
(** ** Fetching the diff and running the action                        *)
(* ------------------------------------------------------------------ *)

Section Orchestration.

Lemma orElse_nonempty (x : option jsstring) (d : jsstring) :
  d <> [] -> orElse x d <> [].
Proof. intros H. destruct x as [[|c s]|]; simpl; congruence. Qed.

(** X17.  When both requests succeed, [fetchPRDiff] reports the files that
    no pattern excludes and no others, with their names, status and counts
    and with the totals of additions and deletions over them, whether or
    not patches were cut; and it gives every commit an author that is not
    empty. *)
Theorem fetchPRDiff_reports
    (localeCompare : jsstring -> jsstring -> Z)
    (minimatch : jsstring -> jsstring -> option bool)
    (filesData : list FileChange) (commitsData : list RawCommit)
    (maxDiffSize : Z) (excludePatterns : list jsstring) :
  exists diff,
    fetchPRDiff localeCompare minimatch (inr filesData) (inr commitsData)
                maxDiffSize excludePatterns
    = (inr diff, [ListFiles; ListCommits])
    /\ Permutation (map metadata (files diff))
                   (map metadata (keptFiles minimatch excludePatterns filesData))
    /\ (forall g, In g (files diff) ->
                  shouldExcludeFile minimatch (filename g) excludePatterns = false)
    /\ totalAdditions diff
       = sumOf additions (keptFiles minimatch excludePatterns filesData)
    /\ totalDeletions diff
       = sumOf deletions (keptFiles minimatch excludePatterns filesData)
    /\ map sha (commits diff) = map rawSha commitsData
    /\ Forall (fun c => author c <> []) (commits diff).
Proof.
  unfold fetchPRDiff. cbv zeta. eexists. split; [reflexivity|].
  cbn [files totalAdditions totalDeletions commits].
  fold (keptFiles minimatch excludePatterns filesData).
  destruct (reduceFiles_metadata localeCompare
              (keptFiles minimatch excludePatterns filesData) maxDiffSize)
    as [Pm [Ha Hd]].
  split; [exact Pm|]. split; [|split; [exact Ha|split; [exact Hd|split]]].
  - intros g Hg.
    assert (Hn : In (filename g)
                    (map filename (keptFiles minimatch excludePatterns filesData))).
    { apply (Permutation_in _
               (proj2 (reduceFiles_filenames localeCompare
                         (keptFiles minimatch excludePatterns filesData)
                         maxDiffSize))).
      apply in_map. exact Hg. }
    apply in_map_iff in Hn as [f [Hf Hin]].
    unfold keptFiles in Hin. apply filter_In in Hin as [_ Hx].
    rewrite <- Hf. apply negb_true_iff. exact Hx.
  - rewrite map_map. reflexivity.
  - apply Forall_forall. intros c Hc. apply in_map_iff in Hc as [r [<- _]].
    cbn [author]. apply orElse_nonempty, orElse_nonempty. discriminate.
Qed.

Lemma updatesOf_app (l1 l2 : list Effect) :
  updatesOf (l1 ++ l2) = updatesOf l1 ++ updatesOf l2.
Proof. unfold updatesOf. apply flat_map_app. Qed.

Lemma updatesOf_generator (trace : list Event) :
  updatesOf (map Generator trace) = [].
Proof. induction trace as [|e t IH]; [reflexivity | exact IH]. Qed.

Lemma isExternal_generator (trace : list Event) :
  forallb isExternal (map Generator trace) = true.
Proof. induction trace as [|e t IH]; [reflexivity | exact IH]. Qed.

Lemma getPRContext_description (o r : jsstring) (pr : option PullRequest)
    (ctx : PRContext) :
  getPRContext o r pr = inr ctx ->
  exists p, pr = Some p /\ currentDescription ctx = orElse (body p) [].
Proof.
  destruct pr as [p|]; simpl; [|discriminate].
  intros H. injection H as <-. exists p. auto.
Qed.

(** Every way [run] can go, with what made it go so. *)
Lemma run_cases (w : World) :
  (exists m, run w = [SetFailed (ACTION_FAILED ++ m)])
  \/ exists i p,
       inputs w = inr i /\ pull_request w = Some p
       /\ validateApiKey (geminiApiKey i) = None
       /\ let d := orElse (body p) [] in
          let go := generate (shouldGenerate d (updateMode i) (generationMarker i)) in
          let gen := generateDescription (api w) in
          let pre := map Request [ListFiles; ListCommits] ++ map Generator (snd gen) in
          (go = false /\ run w = outputs d (lit "false") (model i))
          \/ (go = true
              /\ ((exists requests m,
                     (requests = [ListFiles] \/ requests = [ListFiles; ListCommits])
                     /\ run w = map Request requests
                                ++ [SetFailed (ACTION_FAILED ++ m)])
                  \/ exists filesData commitsData,
                       listFiles w = inr filesData /\ listCommits w = inr commitsData
                       /\ ((exists m,
                              (forall t, fst gen <> Returned t)
                              /\ run w = pre ++ [SetFailed (ACTION_FAILED ++ m)])
                           \/ exists text,
                                fst gen = Returned text
                                /\ let final :=
                                     applyUpdateMode d text (updateMode i)
                                                     (generationMarker i) in
                                   (exists m,
                                      update w = Some m
                                      /\ run w = pre ++ [Request (UpdatePull final);
                                                         SetFailed (ACTION_FAILED ++ m)])
                                   \/ (update w = None
                                       /\ run w = pre ++ Request (UpdatePull final)
                                                    :: outputs final (lit "true")
                                                         (model i))))).
Proof.
  unfold run, caught.
  destruct (inputs w) as [e|i] eqn:Hi; [left; eexists; reflexivity|].
  destruct (validateApiKey (geminiApiKey i)) as [e|] eqn:Hk; [left; eexists; reflexivity|].
  destruct (getPRContext (repoOwner w) (repoName w) (pull_request w))
    as [e|ctx] eqn:Hc; [left; eexists; reflexivity|].
  destruct (getPRContext_description _ _ _ _ Hc) as [p [Hp Hd]]. rewrite Hd.
  right. exists i, p. repeat (split; [auto; fail|]). cbv zeta.
  destruct (generate (shouldGenerate (orElse (body p) []) (updateMode i)
                        (generationMarker i))) eqn:Hg; cbn [negb].
  2:{ left. split; reflexivity. }
  right. split; [reflexivity|].
  unfold fetchPRDiff.
  destruct (listFiles w) as [e|filesData] eqn:Hf.
  { left. exists [ListFiles], e. split; [auto | reflexivity]. }
  destruct (listCommits w) as [e|commitsData] eqn:Hcm.
  { left. exists [ListFiles; ListCommits], e. split; [auto | reflexivity]. }
  right. exists filesData, commitsData. repeat (split; [reflexivity|]).
  destruct (generateDescription (api w)) as [completion trace] eqn:Hgen.
  cbn [fst snd].
  destruct completion as [text|m|].
  - right. exists text. split; [reflexivity|].
    destruct (update w) as [m|] eqn:Hu; rewrite <- !app_assoc.
    + left. exists m. split; reflexivity.
    + right. split; reflexivity.
  - left. exists m. split; [discriminate|]. reflexivity.
  - left. exists []. split; [discriminate|]. reflexivity.
Qed.

(** X18.  In mode [empty], a pull request whose description is not blank is
    left alone: [run] makes no request and no call of the generator, and
    with an acceptable API key it reports the description as it is, with
    [generated] set to ["false"]. *)
Theorem run_empty_mode_hands_off (w : World) (i : ActionInputs) (p : PullRequest) :
  inputs w = inr i -> updateMode i = empty -> pull_request w = Some p ->
  trim (orElse (body p) []) <> [] ->
  forallb isReport (run w) = true
  /\ updatesOf (run w) = []
  /\ (validateApiKey (geminiApiKey i) = None ->
      run w = outputs (orElse (body p) []) (lit "false") (model i)).
Proof.
  intros Hi Hm Hp Hd.
  assert (G : generate (shouldGenerate (orElse (body p) []) (updateMode i)
                          (generationMarker i)) = false).
  { rewrite Hm. unfold shouldGenerate.
    destruct (Z.eqb_spec (len (trim (orElse (body p) []))) 0) as [E|E];
      [|reflexivity].
    apply len_zero in E. contradiction. }
  unfold run, caught. rewrite Hi, Hp.
  destruct (validateApiKey (geminiApiKey i)) as [e|].
  - repeat split. discriminate.
  - cbn [getPRContext currentDescription]. rewrite G. cbn [negb]. repeat split.
Qed.

Lemma run_empty_mode_hands_off_witness :
  forallb isReport (run (sampleWorld empty)) = true
  /\ updatesOf (run (sampleWorld empty)) = []
  /\ (validateApiKey (geminiApiKey (sampleInputs empty)) = None ->
      run (sampleWorld empty)
      = outputs (lit "User notes") (lit "false") (lit "gemini-2.0-flash")).
Proof.
  apply (run_empty_mode_hands_off (sampleWorld empty) (sampleInputs empty)
           samplePull); try reflexivity.
  vm_compute. discriminate.
Defined.

(** X19.  A run sends at most one update to the pull request.  When it
    sends one, the inputs, the key and the event were accepted, both
    requests for the diff succeeded, [shouldGenerate] said yes, the
    generator returned a text, and the description sent is
    [applyUpdateMode] of the current description and that text. *)
Theorem run_updates_once (w : World) :
  (List.length (updatesOf (run w)) <= 1)%nat
  /\ forall sent, In sent (updatesOf (run w)) ->
       exists i p text filesData commitsData,
         inputs w = inr i /\ pull_request w = Some p
         /\ validateApiKey (geminiApiKey i) = None
         /\ listFiles w = inr filesData /\ listCommits w = inr commitsData
         /\ generate (shouldGenerate (orElse (body p) []) (updateMode i)
                        (generationMarker i)) = true
         /\ fst (generateDescription (api w)) = Returned text
         /\ sent = applyUpdateMode (orElse (body p) []) text (updateMode i)
                     (generationMarker i).
Proof.
  destruct (run_cases w) as [[m ->]|[i [p [Hi [Hp [Hk C]]]]]].
  { split; [simpl; lia | intros sent []]. }
  cbv zeta in C. destruct C as [[_ ->]|[Hg C]].
  { split; [simpl; lia | intros sent []]. }
  destruct C as [[requests [m [Hr ->]]]|[fs [cs [Hf [Hc C]]]]].
  { destruct Hr as [-> | ->]; (split; [simpl; lia | intros sent []]). }
  destruct C as [[m [_ ->]]|[text [Ht C]]].
  { rewrite !updatesOf_app, updatesOf_generator.
    split; [simpl; lia | intros sent []]. }
  assert (U : updatesOf (run w)
              = [applyUpdateMode (orElse (body p) []) text (updateMode i)
                   (generationMarker i)]).
  { destruct C as [[m [_ ->]]|[_ ->]];
      rewrite !updatesOf_app, updatesOf_generator; reflexivity. }
  rewrite U. split; [simpl; lia|].
  intros sent [<-|[]]. exists i, p, text, fs, cs. repeat split; assumption.
Qed.

Lemma run_updates_once_witness :
  exists i p text filesData commitsData,
    inputs (sampleWorld smart) = inr i /\ pull_request (sampleWorld smart) = Some p
    /\ validateApiKey (geminiApiKey i) = None
    /\ listFiles (sampleWorld smart) = inr filesData
    /\ listCommits (sampleWorld smart) = inr commitsData
    /\ generate (shouldGenerate (orElse (body p) []) (updateMode i)
                   (generationMarker i)) = true
    /\ fst (generateDescription (api (sampleWorld smart))) = Returned text
    /\ lit "User notes" ++ [LF; LF] ++ wrapWithMarkers (lit "Summary") DEFAULT_MARKER
       = applyUpdateMode (orElse (body p) []) text (updateMode i)
           (generationMarker i).
Proof.
  apply (proj2 (run_updates_once (sampleWorld smart))).
  vm_compute. left. reflexivity.
Defined.

(** X20.  A run reports once, and last.  Everything before the report is a
    request or an event of the generator; the report is one failure, or the
    three outputs.  The outputs say ["false"] for [generated] only when
    nothing at all was done before, and ["true"] only when the update of
    the pull request was sent and not refused, the description reported
    being the description sent. *)
Theorem run_reports_last (w : World) :
  exists done report,
    run w = done ++ report
    /\ forallb isExternal done = true
    /\ ((exists m, report = [SetFailed (ACTION_FAILED ++ m)])
        \/ (exists d modelUsed,
              report = outputs d (lit "false") modelUsed /\ done = [])
        \/ (exists d modelUsed,
              report = outputs d (lit "true") modelUsed
              /\ updatesOf done = [d] /\ update w = None)).
Proof.
  destruct (run_cases w) as [[m ->]|[i [p [Hi [Hp [Hk C]]]]]].
  { exists [], [SetFailed (ACTION_FAILED ++ m)]. repeat split. left. eexists. reflexivity. }
  cbv zeta in C. destruct C as [[_ ->]|[Hg C]].
  { eexists [], _. repeat split. right. left. eexists _, _. split; reflexivity. }
  destruct C as [[requests [m [Hr ->]]]|[fs [cs [Hf [Hc C]]]]].
  { eexists _, _. split; [reflexivity|]. split.
    - destruct Hr as [-> | ->]; reflexivity.
    - left. eexists. reflexivity. }
  destruct C as [[m [_ ->]]|[text [Ht C]]].
  { eexists _, _. split; [reflexivity|]. split.
    - rewrite forallb_app, isExternal_generator. reflexivity.
    - left. eexists. reflexivity. }
  destruct C as [[m [_ ->]]|[Hu ->]].
  - exists (map Request [ListFiles; ListCommits]
            ++ map Generator (snd (generateDescription (api w)))
            ++ [Request (UpdatePull
                  (applyUpdateMode (orElse (body p) []) text (updateMode i)
                     (generationMarker i)))]),
           [SetFailed (ACTION_FAILED ++ m)].
    split; [rewrite <- !app_assoc; reflexivity|]. split.
    + rewrite !forallb_app, isExternal_generator. reflexivity.
    + left. eexists. reflexivity.
  - exists (map Request [ListFiles; ListCommits]
            ++ map Generator (snd (generateDescription (api w)))
            ++ [Request (UpdatePull
                  (applyUpdateMode (orElse (body p) []) text (updateMode i)
                     (generationMarker i)))]),
           (outputs (applyUpdateMode (orElse (body p) []) text (updateMode i)
                       (generationMarker i)) (lit "true") (model i)).
    split; [rewrite <- !app_assoc; reflexivity|]. split.
    + rewrite !forallb_app, isExternal_generator. reflexivity.
    + right. right. eexists _, _. split; [reflexivity|]. split; [|exact Hu].
      rewrite !updatesOf_app, updatesOf_generator. reflexivity.
Qed.

End Orchestration.
